(** * A query-result cache with three eviction policies

    Shallow embedding of [Group9_SourceProgram.cpp]: the query pipeline
    components, the [CacheStrategy] base class with its template methods
    [get] and [put], the three derived policies ([LIRSCache],
    [TinyFLUCache], [S3FIFOCache]) and the [DatabaseSystem] that owns the
    active strategy through a raw pointer.

    Conventions.
    - [std::string] is [string]; a [char] is an [ascii] byte.
    - [std::unordered_map<std::string, T>] is [gmap string T].  Its iteration
      order is unspecified in C++; [cache.begin()->first] is modelled as the
      first key of [map_to_list], which is likewise just some key of the map.
    - [std::deque<std::string>] is [list string]: [front] is the head,
      [push_back] appends at the tail.
    - [int] fields are [Z] in the range of a 32-bit [int].  [n++] wraps
      around in two's complement, as the machine does (the overflow itself is
      undefined in C++; the statements about counters assume that it does not
      occur).  The cast [(size_t)capacity] is written out for a 64-bit
      [size_t].
    - Text written to [std::cout] is a list of [event]s, one per print
      statement (or group of statements) of the source.
    - [new]/[delete] of the strategy object are modelled by the validity of
      the [cache_strategy] pointer; deleting or dereferencing a pointer that
      has already been deleted is undefined behaviour, outcome [Undefined]. *)

From Stdlib Require Import ZArith Ascii.
From stdpp Require Import base strings list gmap.

Local Open Scope string_scope.
Local Open Scope Z_scope.
Local Open Scope list_scope.

(** ** Characters and strings *)

(** [::tolower] in the "C" locale: the 26 upper-case letters move to lower
    case, every other byte is unchanged. *)
Definition tolower (c : ascii) : ascii :=
  let n := nat_of_ascii c in
  if ((65 <=? n)%nat && (n <=? 90)%nat)%bool then ascii_of_nat (n + 32) else c.

(** [std::transform(s.begin(), s.end(), s.begin(), ::tolower)]. *)
Fixpoint transform_tolower (s : string) : string :=
  match s with
  | EmptyString => EmptyString
  | String c s' => String (tolower c) (transform_tolower s')
  end.

(** [str.find_first_not_of(c)]; [None] is [std::string::npos]. *)
Fixpoint find_first_not_of (c : ascii) (str : string) : option nat :=
  match str with
  | EmptyString => None
  | String a str' =>
      if Ascii.eqb a c then S <$> find_first_not_of c str' else Some O
  end.

(** [str.find_last_not_of(c)]; [None] is [std::string::npos]. *)
Fixpoint find_last_not_of (c : ascii) (str : string) : option nat :=
  match str with
  | EmptyString => None
  | String a str' =>
      match find_last_not_of c str' with
      | Some i => Some (S i)
      | None => if Ascii.eqb a c then None else Some O
      end
  end.

(** ** Standard output *)

Inductive event : Type :=
| LIRSEvicted (victim : string)        (* LIRS Evicted: <victim> *)
| TinyFLUEvicted (victim : string)     (* TinyFLU Evicted: <victim> *)
| S3FIFOEvicted (victim : string)      (* S3-FIFO Evicted: <victim> *)
| DebugRawInput (input : string)       (* the three DEBUG lines of print_raw_input_info *)
| DebugProcessed (strat : string)      (* DEBUG: Processed strategy ...: '<strat>' *)
| StrategySetTo (name : string)        (* Caching strategy set to <name>. *)
| InvalidStrategy                      (* Invalid caching strategy selected. Defaulting to LIRS. *)
| CacheHit                             (* Cache hit! *)
| CacheMiss                            (* Cache miss! Executing query... *)
| LockAcquired (resource : string)     (* Lock acquired on <resource>. *)
| LockReleased (resource : string)     (* Lock released on <resource>. *)
| TransactionStarted                   (* Transaction started. *)
| TransactionCommitted.                (* Transaction committed. *)

#[global] Instance event_eq_dec : EqDecision event.
Proof. solve_decision. Defined.

(** ** Query processing components *)

Module QueryParser.
(** Return the query in lowercase for uniformity. *)
Definition parse (query : string) : string := transform_tolower query.
End QueryParser.

Module QueryOptimizer.
Definition optimize (parsed_query : string) : string :=
  "OptimizedPlan(" +:+ parsed_query +:+ ")".
End QueryOptimizer.

Module ExecutionEngine.
(** The simulated delay has no effect on the value returned. *)
Definition execute (plan : string) : string := "Result for " +:+ plan.
End ExecutionEngine.

(** ** Containers *)

(** [m[k]] of [std::unordered_map] read as an rvalue: an absent key is first
    inserted with the default value [d]. *)
Definition subscript {V : Type} (d : V) (m : gmap string V) (k : string)
  : V * gmap string V :=
  match m !! k with
  | Some v => (v, m)
  | None => (d, <[k := d]> m)
  end.

(** [m.begin()->first] of a non-empty map. *)
Definition begin_key {V : Type} (m : gmap string V) : option string :=
  fst <$> head (map_to_list m).

(** [d.erase(std::remove(d.begin(), d.end(), query), d.end())]: every
    occurrence goes. *)
Definition erase_remove (query : string) (d : list string) : list string :=
  filter (λ x, x ≠ query) d.

(** [it = std::find(d.begin(), d.end(), query)] followed, when found, by
    [d.erase(it)]: the first occurrence goes; [None] when [it == d.end()]. *)
Fixpoint find_erase (query : string) (d : list string) : option (list string) :=
  match d with
  | [] => None
  | x :: d' =>
      if decide (x = query) then Some d'
      else (x ::.) <$> find_erase query d'
  end.

(** ** The cache strategies *)

(** Fields of the derived classes. *)
Record LIRSCache : Type := mkLIRS {
  high_interference_list : list string;
  low_interference_list : list string;
  in_high : gmap string bool
}.

Record TinyFLUCache : Type := mkTinyFLU {
  query_queue : list string
}.

Record S3FIFOCache : Type := mkS3FIFO {
  short_term : list string;
  medium_term : list string;
  long_term : list string
}.

(** The dynamic type of a strategy object. *)
Inductive policy : Type :=
| LIRS (p : LIRSCache)
| TinyFLU (p : TinyFLUCache)
| S3FIFO (p : S3FIFOCache).

(** A strategy object: the fields of the base class and those of the
    derived class. *)
Record CacheStrategy : Type := mkCache {
  capacity : Z;
  cache : gmap string string;
  cache_hits : Z;
  cache_misses : Z;
  derived : policy
}.

Definition set_cache (m : gmap string string) (c : CacheStrategy) : CacheStrategy :=
  mkCache (capacity c) m (cache_hits c) (cache_misses c) (derived c).

Definition set_derived (p : policy) (c : CacheStrategy) : CacheStrategy :=
  mkCache (capacity c) (cache c) (cache_hits c) (cache_misses c) p.

(** Constructors: [CacheStrategy(cap)] with empty containers. *)
Definition new_LIRSCache (cap : Z) : CacheStrategy :=
  mkCache cap ∅ 0 0 (LIRS (mkLIRS [] [] ∅)).

Definition new_TinyFLUCache (cap : Z) : CacheStrategy :=
  mkCache cap ∅ 0 0 (TinyFLU (mkTinyFLU [])).

Definition new_S3FIFOCache (cap : Z) : CacheStrategy :=
  mkCache cap ∅ 0 0 (S3FIFO (mkS3FIFO [] [] [])).

(** *** LIRSCache *)

Definition LIRS_admit (query : string) (p : LIRSCache) : LIRSCache :=
  mkLIRS (high_interference_list p ++ [query])
         (low_interference_list p)
         (<[query := true]> (in_high p)).

Definition LIRS_update (query : string) (p : LIRSCache) : LIRSCache :=
  let '(flag, ih) := subscript false (in_high p) query in
  if flag then
    mkLIRS (erase_remove query (high_interference_list p) ++ [query])
           (low_interference_list p)
           ih
  else
    mkLIRS (high_interference_list p ++ [query])
           (erase_remove query (low_interference_list p))
           (<[query := true]> ih).

(** The victim is chosen first; the empty string is what [victim] holds
    when no branch assigns it, and nothing is erased for an empty victim. *)
Definition LIRS_evict (m : gmap string string) (p : LIRSCache)
  : gmap string string * LIRSCache * list event :=
  let '(victim, p1) :=
    match high_interference_list p with
    | v :: h => (v, mkLIRS h (low_interference_list p) (in_high p))
    | [] =>
        match low_interference_list p with
        | v :: l => (v, mkLIRS [] l (in_high p))
        | [] =>
            match begin_key m with
            | Some k => (k, p)
            | None => ("", p)
            end
        end
    end in
  if decide (victim = "") then (m, p1, [])
  else (delete victim m,
        mkLIRS (high_interference_list p1) (low_interference_list p1)
               (delete victim (in_high p1)),
        [LIRSEvicted victim]).

(** *** TinyFLUCache *)

Definition TinyFLU_admit (query : string) (p : TinyFLUCache) : TinyFLUCache :=
  mkTinyFLU (query_queue p ++ [query]).

Definition TinyFLU_update (query : string) (p : TinyFLUCache) : TinyFLUCache :=
  mkTinyFLU (erase_remove query (query_queue p) ++ [query]).

Definition TinyFLU_evict (m : gmap string string) (p : TinyFLUCache)
  : gmap string string * TinyFLUCache * list event :=
  match query_queue p with
  | victim :: q => (delete victim m, mkTinyFLU q, [TinyFLUEvicted victim])
  | [] => (m, p, [])
  end.

(** *** S3FIFOCache *)

Definition S3FIFO_admit (query : string) (p : S3FIFOCache) : S3FIFOCache :=
  mkS3FIFO (short_term p ++ [query]) (medium_term p) (long_term p).

Definition S3FIFO_update (query : string) (p : S3FIFOCache) : S3FIFOCache :=
  match find_erase query (short_term p) with
  | Some s => mkS3FIFO s (medium_term p ++ [query]) (long_term p)
  | None =>
      match find_erase query (medium_term p) with
      | Some md => mkS3FIFO (short_term p) md (long_term p ++ [query])
      | None =>
          match find_erase query (long_term p) with
          | Some l => mkS3FIFO (short_term p) (medium_term p) (l ++ [query])
          | None => p
          end
      end
  end.

Definition S3FIFO_evict (m : gmap string string) (p : S3FIFOCache)
  : gmap string string * S3FIFOCache * list event :=
  let '(victim, p1) :=
    match short_term p with
    | v :: s => (v, mkS3FIFO s (medium_term p) (long_term p))
    | [] =>
        match medium_term p with
        | v :: md => (v, mkS3FIFO [] md (long_term p))
        | [] =>
            match long_term p with
            | v :: l => (v, mkS3FIFO [] [] l)
            | [] =>
                match begin_key m with
                | Some k => (k, p)
                | None => ("", p)
                end
            end
        end
    end in
  if decide (victim = "") then (m, p1, [])
  else (delete victim m, p1, [S3FIFOEvicted victim]).

(** *** Virtual dispatch and the template methods of the base class *)

Definition admit_ (query : string) (c : CacheStrategy) : CacheStrategy :=
  match derived c with
  | LIRS p => set_derived (LIRS (LIRS_admit query p)) c
  | TinyFLU p => set_derived (TinyFLU (TinyFLU_admit query p)) c
  | S3FIFO p => set_derived (S3FIFO (S3FIFO_admit query p)) c
  end.

Definition update (query : string) (c : CacheStrategy) : CacheStrategy :=
  match derived c with
  | LIRS p => set_derived (LIRS (LIRS_update query p)) c
  | TinyFLU p => set_derived (TinyFLU (TinyFLU_update query p)) c
  | S3FIFO p => set_derived (S3FIFO (S3FIFO_update query p)) c
  end.

Definition evict (c : CacheStrategy) : CacheStrategy * list event :=
  match derived c with
  | LIRS p =>
      let '(m, p', out) := LIRS_evict (cache c) p in
      (set_derived (LIRS p') (set_cache m c), out)
  | TinyFLU p =>
      let '(m, p', out) := TinyFLU_evict (cache c) p in
      (set_derived (TinyFLU p') (set_cache m c), out)
  | S3FIFO p =>
      let '(m, p', out) := S3FIFO_evict (cache c) p in
      (set_derived (S3FIFO p') (set_cache m c), out)
  end.

(** [(size_t)capacity] for a 64-bit [size_t]. *)
Definition to_size_t (n : Z) : Z := n mod 2 ^ 64.

(** The range of [int] and [n++] on it. *)
Definition INT_MIN : Z := - 2 ^ 31.
Definition INT_MAX : Z := 2 ^ 31 - 1.

Definition int_wrap (n : Z) : Z := (n + 2 ^ 31) mod 2 ^ 32 - 2 ^ 31.

Definition incr (n : Z) : Z := int_wrap (n + 1).

Definition get (query : string) (c : CacheStrategy) : string * CacheStrategy :=
  match cache c !! query with
  | Some _ =>
      let c1 := mkCache (capacity c) (cache c) (incr (cache_hits c))
                        (cache_misses c) (derived c) in
      let c2 := update query c1 in
      let '(v, m) := subscript "" (cache c2) query in
      (v, set_cache m c2)
  | None =>
      ("", mkCache (capacity c) (cache c) (cache_hits c)
                   (incr (cache_misses c)) (derived c))
  end.

Definition put (query result : string) (c : CacheStrategy)
  : CacheStrategy * list event :=
  match cache c !! query with
  | Some _ => (update query c, [])
  | None =>
      let '(c1, out) :=
        if (to_size_t (capacity c) <=? Z.of_nat (size (cache c)))%Z
        then evict c else (c, []) in
      (admit_ query (set_cache (<[query := result]> (cache c1)) c1), out)
  end.

(** [stats]: the numbers and keys that are printed. *)
Definition stats (c : CacheStrategy) : Z * Z * nat * list string :=
  (cache_hits c, cache_misses c, size (cache c), (map_to_list (cache c)).*1).

(** ** DatabaseSystem *)

(** The raw pointer [CacheStrategy *cache_strategy]: it either points to a
    live object or holds the address of an object that has been deleted. *)
Inductive pointer : Type :=
| Live (c : CacheStrategy)
| Dangling.

Record DatabaseSystem : Type := mkDB {
  cache_strategy : pointer
}.

(** A member function either returns, leaving the system in a new state and
    some text on standard output, or runs into undefined behaviour. *)
Inductive outcome (A : Type) : Type :=
| Returns (a : A) (db : DatabaseSystem) (out : list event)
| Undefined (out : list event).
Arguments Returns {A} a db out.
Arguments Undefined {A} out.

Definition M (A : Type) : Type := DatabaseSystem → outcome A.

#[global] Instance M_ret : MRet M := λ A a db, Returns a db [].

#[global] Instance M_bind : MBind M := λ A B f m db,
  match m db with
  | Returns a db1 out1 =>
      match f a db1 with
      | Returns b db2 out2 => Returns b db2 (out1 ++ out2)
      | Undefined out2 => Undefined (out1 ++ out2)
      end
  | Undefined out1 => Undefined out1
  end.

(** [std::cout << ...]. *)
Definition print (e : event) : M unit := λ db, Returns () db [e].

(** [delete cache_strategy;]: the object goes, the pointer keeps its value.
    Deleting what has already been deleted is undefined. *)
Definition delete_cache_strategy : M unit := λ db,
  match cache_strategy db with
  | Live _ => Returns () (mkDB Dangling) []
  | Dangling => Undefined []
  end.

(** [cache_strategy = new ...;]. *)
Definition assign_cache_strategy (c : CacheStrategy) : M unit := λ db,
  Returns () (mkDB (Live c)) [].

(** [cache_strategy->get(query)]. *)
Definition call_get (query : string) : M string := λ db,
  match cache_strategy db with
  | Live c => let '(v, c') := get query c in Returns v (mkDB (Live c')) []
  | Dangling => Undefined []
  end.

(** [cache_strategy->put(query, result)]. *)
Definition call_put (query result : string) : M unit := λ db,
  match cache_strategy db with
  | Live c => let '(c', out) := put query result c in Returns () (mkDB (Live c')) out
  | Dangling => Undefined []
  end.

Module TransactionManager.
Definition begin : M unit := print TransactionStarted.
Definition commit : M unit := print TransactionCommitted.
End TransactionManager.

Module LockManager.
Definition acquire (resource : string) : M unit := print (LockAcquired resource).
Definition release (resource : string) : M unit := print (LockReleased resource).
End LockManager.

(** [DatabaseSystem() : cache_strategy(new LIRSCache(5))]. *)
Definition new_DatabaseSystem : DatabaseSystem := mkDB (Live (new_LIRSCache 5)).

Definition trim (str : string) : string :=
  match find_first_not_of " " str, find_last_not_of " " str with
  | Some first, Some last => String.substring first (last - first + 1)%nat str
  | _, _ => ""
  end.

Definition set_cache_strategy (strategy : string) : M unit :=
  delete_cache_strategy ;;
  print (DebugRawInput strategy) ;;
  let strat := transform_tolower (trim strategy) in
  print (DebugProcessed strat) ;;
  if decide (strat = "lirs") then
    assign_cache_strategy (new_LIRSCache 5) ;;
    print (StrategySetTo "LIRS")
  else if decide (strat = "tinyflu") then
    assign_cache_strategy (new_TinyFLUCache 5) ;;
    print (StrategySetTo "TinyFLU")
  else if decide (strat = "s3fifo" ∨ strat = "s3-fifo") then
    assign_cache_strategy (new_S3FIFOCache 5) ;;
    print (StrategySetTo "S3-FIFO")
  else
    print InvalidStrategy ;;
    delete_cache_strategy ;;
    assign_cache_strategy (new_LIRSCache 5).

Definition process_query (query : string) : M string :=
  let parsed_query := QueryParser.parse query in
  let plan := QueryOptimizer.optimize parsed_query in
  cached_result ← call_get query ;
  if decide (cached_result ≠ "") then
    print CacheHit ;;
    mret cached_result
  else
    print CacheMiss ;;
    LockManager.acquire "table" ;;
    print (LockAcquired "table") ;;
    TransactionManager.begin ;;
    let result := ExecutionEngine.execute plan in
    TransactionManager.commit ;;
    LockManager.release "table" ;;
    call_put query result ;;
    mret result.

(** [show_cache_stats]: what [cache_strategy->stats()] prints. *)
Definition show_cache_stats (db : DatabaseSystem)
  : option (Z * Z * nat * list string) :=
  match cache_strategy db with
  | Live c => Some (stats c)
  | Dangling => None
  end.

Definition stdout {A : Type} (o : outcome A) : list event :=
  match o with
  | Returns _ _ out => out
  | Undefined out => out
  end.

(** ** Strategy names as the specification words them *)

(** Removing the surrounding characters that satisfy [blank]. *)
Fixpoint strip_leading (blank : ascii → bool) (s : string) : string :=
  match s with
  | EmptyString => EmptyString
  | String a s' => if blank a then strip_leading blank s' else s
  end.

Fixpoint strip_trailing (blank : ascii → bool) (s : string) : string :=
  match s with
  | EmptyString => EmptyString
  | String a s' =>
      match strip_trailing blank s' with
      | EmptyString => if blank a then EmptyString else String a EmptyString
      | t => String a t
      end
  end.

Definition strip (blank : ascii → bool) (s : string) : string :=
  strip_trailing blank (strip_leading blank s).

(** White space as [isspace] has it in the "C" locale: the space, and the
    control characters from horizontal tab (9) to carriage return (13). *)
Definition isspace (a : ascii) : bool :=
  let n := nat_of_ascii a in
  ((n =? 32)%nat || ((9 <=? n)%nat && (n <=? 13)%nat))%bool.

(** The specification's reading of strategy selection: the name with
    surrounding white space removed and case folded decides the policy, and
    every other input gives the notice and the default policy. *)
Definition selects_as_specified (strategy : string) (db : DatabaseSystem) : Prop :=
  let name := transform_tolower (strip isspace strategy) in
  (name = "lirs" →
     ∃ out, set_cache_strategy strategy db =
              Returns () (mkDB (Live (new_LIRSCache 5))) out) ∧
  (name = "tinyflu" →
     ∃ out, set_cache_strategy strategy db =
              Returns () (mkDB (Live (new_TinyFLUCache 5))) out) ∧
  (name = "s3fifo" ∨ name = "s3-fifo" →
     ∃ out, set_cache_strategy strategy db =
              Returns () (mkDB (Live (new_S3FIFOCache 5))) out) ∧
  (name ∉ ["lirs"; "tinyflu"; "s3fifo"; "s3-fifo"] →
     ∃ out, set_cache_strategy strategy db =
              Returns () (mkDB (Live (new_LIRSCache 5))) out ∧
            InvalidStrategy ∈ out).

(** ** Calls against a strategy object *)

Inductive call : Type :=
| Get (query : string)
| Put (query result : string).

Definition run_call (op : call) (c : CacheStrategy) : CacheStrategy * list event :=
  match op with
  | Get query => ((get query c).2, [])
  | Put query result => put query result c
  end.

Fixpoint run_calls (ops : list call) (c : CacheStrategy)
  : CacheStrategy * list event :=
  match ops with
  | [] => (c, [])
  | op :: ops' =>
      let '(c1, out1) := run_call op c in
      let '(c2, out2) := run_calls ops' c1 in
      (c2, out1 ++ out2)
  end.

(** The three policies by name. *)
Inductive kind : Type := KLIRS | KTinyFLU | KS3FIFO.

Definition new_cache (k : kind) (cap : Z) : CacheStrategy :=
  match k with
  | KLIRS => new_LIRSCache cap
  | KTinyFLU => new_TinyFLUCache cap
  | KS3FIFO => new_S3FIFOCache cap
  end.

Definition kind_of (c : CacheStrategy) : kind :=
  match derived c with
  | LIRS _ => KLIRS
  | TinyFLU _ => KTinyFLU
  | S3FIFO _ => KS3FIFO
  end.

(** The line that a policy prints for a victim. *)
Definition evicted (k : kind) (victim : string) : event :=
  match k with
  | KLIRS => LIRSEvicted victim
  | KTinyFLU => TinyFLUEvicted victim
  | KS3FIFO => S3FIFOEvicted victim
  end.

(** ** Bookkeeping invariants *)

(** The keys that a policy tracks, in the order in which [evict] would take
    them. *)
Definition sequences (p : policy) : list string :=
  match p with
  | LIRS p => high_interference_list p ++ low_interference_list p
  | TinyFLU p => query_queue p
  | S3FIFO p => short_term p ++ medium_term p ++ long_term p
  end.

(** [in_high] tells the two lists of [LIRSCache] apart. *)
Definition flags_agree (p : policy) : Prop :=
  match p with
  | LIRS p =>
      (∀ k, k ∈ high_interference_list p → in_high p !! k = Some true) ∧
      (∀ k, k ∈ low_interference_list p → in_high p !! k ≠ Some true)
  | _ => True
  end.

(** The two policies that hold the victim in a local string, empty when
    none was found, track no empty key. *)
Definition sentinel_free (p : policy) : Prop :=
  match p with
  | TinyFLU _ => True
  | _ => "" ∉ sequences p
  end.

Record consistent (c : CacheStrategy) : Prop := mkConsistent {
  seq_nodup : NoDup (sequences (derived c));
  seq_store : ∀ k, k ∈ sequences (derived c) ↔ is_Some (cache c !! k);
  seq_flags : flags_agree (derived c);
  seq_sentinel : sentinel_free (derived c)
}.

(** No key has been promoted yet: everything sits in the sequence that
    [admit] fills. *)
Definition unpromoted (p : policy) : Prop :=
  match p with
  | LIRS p => low_interference_list p = []
  | TinyFLU _ => True
  | S3FIFO p => medium_term p = [] ∧ long_term p = []
  end.

(** A key that [put] may insert without meeting the empty-victim test. *)
Definition insertable (k : kind) (query : string) : Prop :=
  k = KTinyFLU ∨ query ≠ "".

Definition insertable_call (k : kind) (op : call) : Prop :=
  match op with
  | Get _ => True
  | Put query _ => insertable k query
  end.

(** A strategy object on which no key has been promoted: it is consistent,
    of kind [k] and capacity [cap], and tracks exactly the keys [q], oldest
    first. *)
Definition tracks (k : kind) (cap : Z) (q : list string) (c : CacheStrategy) : Prop :=
  consistent c ∧ unpromoted (derived c) ∧ sequences (derived c) = q ∧
  capacity c = cap ∧ kind_of c = k.

(** Every lookup of the run misses. *)
Fixpoint hit_free (ops : list call) (c : CacheStrategy) : Prop :=
  match ops with
  | [] => True
  | op :: ops' =>
      match op with
      | Get query => cache c !! query = None
      | Put _ _ => True
      end ∧ hit_free ops' (run_call op c).1
  end.

(** The keys that a run inserts, in order. *)
Definition inserted (ops : list call) : list string :=
  omap (λ op, match op with Put query _ => Some query | Get _ => None end) ops.

(** ** Further notions *)

(** The number of lookups ([get] calls) of a run. *)
Definition is_lookup (op : call) : bool :=
  match op with Get _ => true | Put _ _ => false end.

Definition lookups (ops : list call) : nat := length (filter is_lookup ops).

(** Every call of the run concerns a key that the store does not hold at
    that moment: lookups miss and insertions are of new keys. *)
Fixpoint fresh_run (ops : list call) (c : CacheStrategy) : Prop :=
  match ops with
  | [] => True
  | op :: ops' =>
      match op with
      | Get query => cache c !! query = None
      | Put query _ => cache c !! query = None
      end ∧ fresh_run ops' (run_call op c).1
  end.

(** A strategy object with another capacity. *)
Definition with_capacity (cap : Z) (c : CacheStrategy) : CacheStrategy :=
  mkCache cap (cache c) (cache_hits c) (cache_misses c) (derived c).

(** The line of a [LIRSCache] eviction read as that of a [TinyFLUCache]. *)
Definition relabel (e : event) : event :=
  match e with
  | LIRSEvicted victim => TinyFLUEvicted victim
  | _ => e
  end.

(** A [TinyFLUCache] that holds what a [LIRSCache] holds: the same store and
    counters, and as its queue the high list of the other, whose low list is
    empty. *)
Definition mirrors (cL cT : CacheStrategy) : Prop :=
  cache cL = cache cT ∧ cache_hits cL = cache_hits cT ∧
  cache_misses cL = cache_misses cT ∧ capacity cL = capacity cT ∧
  ∃ pL, derived cL = LIRS pL ∧ low_interference_list pL = [] ∧
        derived cT = TinyFLU (mkTinyFLU (high_interference_list pL)).

(** [n] space characters. *)
Fixpoint spaces (n : nat) : string :=
  match n with
  | O => EmptyString
  | S n' => String " " (spaces n')
  end.

(** What the pipeline computes for a query: parse, optimize, execute. *)
Definition computed_result (query : string) : string :=
  ExecutionEngine.execute (QueryOptimizer.optimize (QueryParser.parse query)).

(** Every stored value is the result computed for its key. *)
Definition canonical (c : CacheStrategy) : Prop :=
  ∀ key v, cache c !! key = Some v → v = computed_result key.

(** What [process_query] prints on a miss, before [put] runs. *)
Definition miss_lines : list event :=
  [CacheMiss; LockAcquired "table"; LockAcquired "table";
   TransactionStarted; TransactionCommitted; LockReleased "table"].

(** [for (const auto &query : queries) process_query(query);] *)
Fixpoint process_all (queries : list string) : M unit :=
  match queries with
  | [] => mret ()
  | query :: queries' => process_query query ;; process_all queries'
  end.

(** The queries of [run_benchmark]. *)
Definition benchmark_queries : list string :=
  ["SELECT * FROM employees";
   "SELECT * FROM orders WHERE order_id = 100";
   "SELECT name FROM customers WHERE city = 'New York'";
   "SELECT * FROM orders";
   "SELECT COUNT(*) FROM sales";
   "SELECT * FROM employees";
   "SELECT * FROM orders WHERE order_id = 100"].

(** What [run_benchmark] prints: its two own lines around the lines of the
    queries.  The elapsed time in the last line is wall-clock time and has
    no place in the line. *)
Inductive benchmark_line : Type :=
| BenchmarkRunning                 (* Running benchmark... *)
| BenchmarkOutput (e : event)      (* a line printed by process_query *)
| BenchmarkCompleted.              (* Benchmark completed in <elapsed> seconds. *)

(** [run_benchmark]: the system afterwards ([None] after undefined
    behaviour) and the lines printed. *)
Definition run_benchmark (db : DatabaseSystem)
  : option DatabaseSystem * list benchmark_line :=
  match process_all benchmark_queries db with
  | Returns _ db' out =>
      (Some db', BenchmarkRunning :: (BenchmarkOutput <$> out) ++ [BenchmarkCompleted])
  | Undefined out => (None, BenchmarkRunning :: (BenchmarkOutput <$> out))
  end.

(** Counting the lines of a pipeline run. *)
Definition executions (out : list event) : nat :=
  length (filter (λ e, e = CacheMiss) out).

Definition hits_reported (out : list event) : nat :=
  length (filter (λ e, e = CacheHit) out).

Definition is_eviction (e : event) : bool :=
  match e with
  | LIRSEvicted _ | TinyFLUEvicted _ | S3FIFOEvicted _ => true
  | _ => false
  end.

(** * Properties *)

(** ** The hooks and the fields of the base class *)

Lemma update_cache query c : cache (update query c) = cache c.
Proof. unfold update. by destruct (derived c). Qed.

Lemma update_cache_hits query c : cache_hits (update query c) = cache_hits c.
Proof. unfold update. by destruct (derived c). Qed.

Lemma update_cache_misses query c : cache_misses (update query c) = cache_misses c.
Proof. unfold update. by destruct (derived c). Qed.

Lemma update_capacity query c : capacity (update query c) = capacity c.
Proof. unfold update. by destruct (derived c). Qed.

Lemma admit_cache query c : cache (admit_ query c) = cache c.
Proof. unfold admit_. by destruct (derived c). Qed.

Lemma admit_capacity query c : capacity (admit_ query c) = capacity c.
Proof. unfold admit_. by destruct (derived c). Qed.

Lemma evict_capacity c : capacity (evict c).1 = capacity c.
Proof.
  unfold evict. destruct (derived c) as [p|p|p].
  - by destruct (LIRS_evict (cache c) p) as [[??]?].
  - by destruct (TinyFLU_evict (cache c) p) as [[??]?].
  - by destruct (S3FIFO_evict (cache c) p) as [[??]?].
Qed.

(** [evict] erases at most one key and writes no value. *)
Lemma evict_cache c :
  cache (evict c).1 = cache c ∨ ∃ victim, cache (evict c).1 = delete victim (cache c).
Proof.
  unfold evict. destruct (derived c) as [p|p|p].
  - unfold LIRS_evict.
    destruct (match high_interference_list p with
              | [] => _ | v :: h => _ end) as [victim p1].
    destruct (decide (victim = "")); simpl; eauto.
  - unfold TinyFLU_evict. destruct (query_queue p); simpl; eauto.
  - unfold S3FIFO_evict.
    destruct (match short_term p with [] => _ | v :: h => _ end) as [victim p1].
    destruct (decide (victim = "")); simpl; eauto.
Qed.

Lemma evict_lookup c key :
  cache (evict c).1 !! key = cache c !! key ∨ cache (evict c).1 !! key = None.
Proof.
  destruct (evict_cache c) as [->|[victim ->]]; [by left|].
  destruct (decide (victim = key)) as [->|Hne].
  - right. apply lookup_delete_eq.
  - left. by apply lookup_delete_ne.
Qed.

(** ** The two branches of [get] and of [put] *)

Lemma get_hit c query v :
  cache c !! query = Some v →
  get query c =
    (v, update query (mkCache (capacity c) (cache c) (incr (cache_hits c))
                              (cache_misses c) (derived c))).
Proof.
  intros Hin. unfold get, subscript. rewrite Hin, update_cache. simpl.
  rewrite Hin. f_equal. unfold set_cache, update. simpl.
  by destruct (derived c).
Qed.

Lemma get_miss c query :
  cache c !! query = None →
  get query c =
    ("", mkCache (capacity c) (cache c) (cache_hits c) (incr (cache_misses c))
                 (derived c)).
Proof. intros Hout. unfold get. by rewrite Hout. Qed.

Lemma incr_in_range n : INT_MIN ≤ n < INT_MAX → incr n = n + 1.
Proof.
  unfold incr, int_wrap, INT_MIN, INT_MAX. intros Hn.
  rewrite Z.mod_small by lia. lia.
Qed.

Lemma put_present c query result v :
  cache c !! query = Some v → put query result c = (update query c, []).
Proof. intros Hin. unfold put. by rewrite Hin. Qed.

Lemma put_absent c query result :
  cache c !! query = None →
  put query result c =
    (let c1 := if (to_size_t (capacity c) <=? Z.of_nat (size (cache c)))%Z
               then (evict c).1 else c in
     admit_ query (set_cache (<[query := result]> (cache c1)) c1),
     if (to_size_t (capacity c) <=? Z.of_nat (size (cache c)))%Z
     then (evict c).2 else []).
Proof.
  intros Hout. unfold put. rewrite Hout.
  destruct (to_size_t (capacity c) <=? Z.of_nat (size (cache c)))%Z; [|done].
  by destruct (evict c).
Qed.

(** ** Lookups and repeated insertions *)

(** C10: a lookup of a key that the store does not hold returns the empty
    string and adds one to the miss counter (an [int] below its maximum);
    the store, the hit counter, the capacity and the policy's sequences are
    what they were (no hook runs). *)
Theorem get_absent_only_counts_a_miss (c : CacheStrategy) (key : string) :
  cache c !! key = None →
  INT_MIN ≤ cache_misses c < INT_MAX →
  get key c =
    ("", mkCache (capacity c) (cache c) (cache_hits c) (cache_misses c + 1)
                 (derived c)).
Proof. intros Hout Hn. by rewrite (get_miss _ _ Hout), incr_in_range. Qed.

Lemma get_absent_only_counts_a_miss_witness :
  get "q" (new_S3FIFOCache 5) =
    ("", mkCache 5 ∅ 0 1 (S3FIFO (mkS3FIFO [] [] []))).
Proof.
  apply (get_absent_only_counts_a_miss (new_S3FIFOCache 5) "q").
  - reflexivity.
  - unfold INT_MIN, INT_MAX. simpl. lia.
Defined.

(** One call leaves a stored value alone: afterwards the key is either
    bound to the same value or gone. *)
Lemma run_call_lookup op c key v :
  cache c !! key = Some v →
  cache (run_call op c).1 !! key = Some v ∨ cache (run_call op c).1 !! key = None.
Proof.
  intros Hin. destruct op as [query|query result]; simpl.
  - left. destruct (cache c !! query) as [w|] eqn:Hq.
    + by rewrite (get_hit _ _ _ Hq); simpl; rewrite update_cache.
    + by rewrite (get_miss _ _ Hq).
  - destruct (cache c !! query) as [w|] eqn:Hq.
    + left. by rewrite (put_present _ _ _ _ Hq); simpl; rewrite update_cache.
    + rewrite (put_absent _ _ _ Hq); simpl. rewrite admit_cache. simpl.
      assert (query ≠ key) as Hne by congruence.
      rewrite lookup_insert_ne by done.
      destruct (to_size_t (capacity c) <=? Z.of_nat (size (cache c)))%Z; [|by left].
      destruct (evict_lookup c key) as [->| ->]; auto.
Qed.

(** C8: for a key that the store holds, [get] returns the stored value,
    adds one to the hit counter (an [int] below its maximum) and changes
    neither the store nor the miss counter; [put] with any value leaves the store (hence the value) and both
    counters unchanged and only runs the policy's [update]; and no single
    call ever rebinds the key: after it the key has the same value or has
    been evicted. *)
Theorem present_key_keeps_its_value (c : CacheStrategy) (key v : string) :
  cache c !! key = Some v →
  INT_MIN ≤ cache_hits c < INT_MAX →
  (∃ c', get key c = (v, c') ∧
         cache c' = cache c ∧
         cache_hits c' = cache_hits c + 1 ∧
         cache_misses c' = cache_misses c ∧
         capacity c' = capacity c) ∧
  (∀ v', ∃ c', put key v' c = (c', []) ∧
         cache c' = cache c ∧
         cache_hits c' = cache_hits c ∧
         cache_misses c' = cache_misses c ∧
         capacity c' = capacity c) ∧
  (∀ op, cache (run_call op c).1 !! key = Some v ∨
         cache (run_call op c).1 !! key = None).
Proof.
  intros Hin Hn. split; [|split].
  - eexists. split; [by apply get_hit|].
    rewrite update_cache, update_cache_hits, update_cache_misses,
      update_capacity. simpl. by rewrite incr_in_range.
  - intros v'. eexists. split; [by eapply put_present|].
    by rewrite update_cache, update_cache_hits, update_cache_misses,
      update_capacity.
  - intros op. by apply run_call_lookup.
Qed.

Lemma present_key_keeps_its_value_witness :
  let c := (put "k" "v" (new_LIRSCache 5)).1 in
  (∃ c', get "k" c = ("v", c') ∧
         cache c' = cache c ∧
         cache_hits c' = cache_hits c + 1 ∧
         cache_misses c' = cache_misses c ∧
         capacity c' = capacity c) ∧
  (∀ v', ∃ c', put "k" v' c = (c', []) ∧
         cache c' = cache c ∧
         cache_hits c' = cache_hits c ∧
         cache_misses c' = cache_misses c ∧
         capacity c' = capacity c) ∧
  (∀ op, cache (run_call op c).1 !! "k" = Some "v" ∨
         cache (run_call op c).1 !! "k" = None).
Proof.
  apply (present_key_keeps_its_value (put "k" "v" (new_LIRSCache 5)).1 "k" "v").
  - vm_compute. reflexivity.
  - split; by vm_compute.
Defined.

(** ** The pipeline *)

(** C9: when the store binds the submitted text to the empty string, the
    pipeline reports a miss and executes the query again, although [get]
    found the key (and counted a hit); the stored empty value stays. *)
Theorem process_query_empty_value_is_a_miss (c : CacheStrategy) (query : string) :
  cache c !! query = Some "" →
  ∃ c',
    process_query query (mkDB (Live c)) =
      Returns
        (ExecutionEngine.execute (QueryOptimizer.optimize (QueryParser.parse query)))
        (mkDB (Live c'))
        [CacheMiss; LockAcquired "table"; LockAcquired "table";
         TransactionStarted; TransactionCommitted; LockReleased "table"] ∧
    cache c' = cache c ∧
    cache_hits c' = incr (cache_hits c) ∧
    cache_misses c' = cache_misses c.
Proof.
  intros Hin. eexists. split.
  - unfold process_query, mbind, M_bind, call_get. simpl.
    rewrite (get_hit _ _ _ Hin). simpl.
    unfold call_put. simpl.
    erewrite put_present by (by rewrite update_cache). reflexivity.
  - by rewrite !update_cache, !update_cache_hits, !update_cache_misses.
Qed.

Lemma process_query_empty_value_is_a_miss_witness :
  ∃ c',
    process_query "q" (mkDB (Live (put "q" "" (new_TinyFLUCache 5)).1)) =
      Returns "Result for OptimizedPlan(q)" (mkDB (Live c'))
        [CacheMiss; LockAcquired "table"; LockAcquired "table";
         TransactionStarted; TransactionCommitted; LockReleased "table"] ∧
    cache c' = cache (put "q" "" (new_TinyFLUCache 5)).1 ∧
    cache_hits c' = incr (cache_hits (put "q" "" (new_TinyFLUCache 5)).1) ∧
    cache_misses c' = cache_misses (put "q" "" (new_TinyFLUCache 5)).1.
Proof.
  apply (process_query_empty_value_is_a_miss
           (put "q" "" (new_TinyFLUCache 5)).1 "q").
  vm_compute. reflexivity.
Defined.

(** On a miss the pipeline stores the new result under the text it was
    given, whatever its letter case. *)
Lemma process_query_miss_stores_submitted_text (c : CacheStrategy) (query : string) :
  cache c !! query = None →
  let result :=
    ExecutionEngine.execute (QueryOptimizer.optimize (QueryParser.parse query)) in
  ∃ c' out,
    process_query query (mkDB (Live c)) =
      Returns result (mkDB (Live c'))
        ([CacheMiss; LockAcquired "table"; LockAcquired "table";
          TransactionStarted; TransactionCommitted; LockReleased "table"] ++ out) ∧
    cache c' !! query = Some result.
Proof.
  intros Hout result.
  unfold process_query, mbind, M_bind, call_get. simpl.
  rewrite (get_miss _ _ Hout). simpl. unfold call_put. simpl.
  rewrite put_absent by done. simpl.
  do 2 eexists. split; [done|].
  rewrite admit_cache. simpl. apply lookup_insert_eq.
Qed.

(** C2: the store is keyed by the text as submitted, not by the parsed
    (lower-cased) text.  Submitting [SELECT 1] and then [select 1] to a new
    system gives two misses and two entries, although both parse to the same
    text and both results are the same. *)
Theorem process_query_keys_on_submitted_text :
  QueryParser.parse "SELECT 1" = QueryParser.parse "select 1" ∧
  ∃ db1 db2 c2,
    process_query "SELECT 1" new_DatabaseSystem =
      Returns "Result for OptimizedPlan(select 1)" db1
        [CacheMiss; LockAcquired "table"; LockAcquired "table";
         TransactionStarted; TransactionCommitted; LockReleased "table"] ∧
    process_query "select 1" db1 =
      Returns "Result for OptimizedPlan(select 1)" db2
        [CacheMiss; LockAcquired "table"; LockAcquired "table";
         TransactionStarted; TransactionCommitted; LockReleased "table"] ∧
    cache_strategy db2 = Live c2 ∧
    cache_hits c2 = 0 ∧ cache_misses c2 = 2 ∧ size (cache c2) = 2%nat ∧
    cache c2 !! "SELECT 1" = Some "Result for OptimizedPlan(select 1)" ∧
    cache c2 !! "select 1" = Some "Result for OptimizedPlan(select 1)".
Proof.
  split; [done|]. do 3 eexists.
  split; [vm_compute; reflexivity|].
  split; [vm_compute; reflexivity|].
  split; [reflexivity|]. by vm_compute.
Qed.

(** ** Strategy selection *)

Lemma set_cache_strategy_unfold (strategy : string) (c : CacheStrategy) :
  let strat := transform_tolower (trim strategy) in
  set_cache_strategy strategy (mkDB (Live c)) =
    if decide (strat = "lirs") then
      Returns () (mkDB (Live (new_LIRSCache 5)))
        [DebugRawInput strategy; DebugProcessed strat; StrategySetTo "LIRS"]
    else if decide (strat = "tinyflu") then
      Returns () (mkDB (Live (new_TinyFLUCache 5)))
        [DebugRawInput strategy; DebugProcessed strat; StrategySetTo "TinyFLU"]
    else if decide (strat = "s3fifo" ∨ strat = "s3-fifo") then
      Returns () (mkDB (Live (new_S3FIFOCache 5)))
        [DebugRawInput strategy; DebugProcessed strat; StrategySetTo "S3-FIFO"]
    else
      Undefined [DebugRawInput strategy; DebugProcessed strat; InvalidStrategy].
Proof.
  simpl. unfold set_cache_strategy, mbind, M_bind. simpl.
  by repeat case_decide.
Qed.

(** A recognised name leaves a new, empty strategy object behind, whatever
    the old one held. *)
Lemma set_cache_strategy_recognised_resets (strategy : string) (c : CacheStrategy) :
  transform_tolower (trim strategy) ∈ ["lirs"; "tinyflu"; "s3fifo"; "s3-fifo"] →
  ∃ c' out,
    set_cache_strategy strategy (mkDB (Live c)) = Returns () (mkDB (Live c')) out ∧
    cache_hits c' = 0 ∧ cache_misses c' = 0 ∧ cache c' = ∅ ∧ capacity c' = 5.
Proof.
  intros Hin. rewrite set_cache_strategy_unfold.
  repeat case_decide; try (by do 2 eexists).
  apply elem_of_cons in Hin as [?|Hin]; [done|].
  apply elem_of_cons in Hin as [?|Hin]; [done|].
  apply elem_of_cons in Hin as [?|Hin]; [tauto|].
  apply elem_of_cons in Hin as [?|Hin]; [tauto|].
  by apply elem_of_nil in Hin.
Qed.

(** C7: an unrecognised name (here [foo]) makes [set_cache_strategy] delete
    the strategy object on entry and a second time in its last branch, before
    the replacement is allocated: whatever the old object held, the call is
    undefined and leaves no cache whose counters and keys could be zero. *)
Theorem set_cache_strategy_unrecognised_deletes_twice (c : CacheStrategy) :
  set_cache_strategy "foo" (mkDB (Live c)) =
    Undefined [DebugRawInput "foo"; DebugProcessed "foo"; InvalidStrategy].
Proof. by rewrite set_cache_strategy_unfold. Qed.

(** [trim] removes the leading and the trailing space characters (code 32)
    and nothing else. *)
Lemma substring_0_cons n a s :
  String.substring 0 (S n) (String a s) = String a (String.substring 0 n s).
Proof. done. Qed.

Lemma find_last_not_of_strip_trailing s :
  match find_last_not_of " " s with
  | Some l => String.substring 0 (S l) s = strip_trailing (Ascii.eqb " ") s
  | None => strip_trailing (Ascii.eqb " ") s = ""
  end.
Proof.
  induction s as [|a s IH]; [done|].
  cbn [find_last_not_of strip_trailing].
  destruct (find_last_not_of " " s) as [l|] eqn:Hl.
  - rewrite <- IH. destruct s as [|b s]; [done|].
    by rewrite !substring_0_cons.
  - rewrite IH, Ascii.eqb_sym. destruct (Ascii.eqb " " a); [done|].
    rewrite substring_0_cons. by destruct s.
Qed.

Lemma trim_strips_spaces s : trim s = strip (Ascii.eqb " ") s.
Proof.
  unfold trim, strip. induction s as [|a s IH]; [done|].
  cbn [find_first_not_of find_last_not_of strip_leading].
  rewrite (Ascii.eqb_sym " " a).
  destruct (Ascii.eqb a " ") eqn:Ha.
  - rewrite <- IH.
    destruct (find_first_not_of " " s) as [f|]; [|done].
    by destruct (find_last_not_of " " s) as [l|].
  - pose proof (find_last_not_of_strip_trailing (String a s)) as Hl.
    cbn [find_last_not_of] in Hl. rewrite Ha in Hl.
    destruct (find_last_not_of " " s) as [l|]; rewrite <- Hl.
    + by replace (S l - 0 + 1)%nat with (S (S l)) by lia.
    + done.
Qed.

(** C4 as stated fails on a name preceded by a horizontal tab: with white
    space removed and case folded it reads [tinyflu], yet the tab is not a
    space, the name is not recognised, the notice is printed and the strategy
    object is deleted a second time. *)
Lemma set_cache_strategy_tab_counterexample :
  transform_tolower (strip isspace (String "009" "TinyFLU")) = "tinyflu" ∧
  set_cache_strategy (String "009" "TinyFLU") new_DatabaseSystem =
    Undefined [DebugRawInput (String "009" "TinyFLU");
               DebugProcessed (String "009" "tinyflu");
               InvalidStrategy] ∧
  ¬ selects_as_specified (String "009" "TinyFLU") new_DatabaseSystem.
Proof.
  split; [done|]. split; [done|].
  intros (_ & Htiny & _). destruct Htiny as [out Hout]; [done|].
  vm_compute in Hout. discriminate.
Qed.

(** C4, amended: the name with leading and trailing spaces removed (by
    [trim], spaces only) and its letters lower-cased decides.  [lirs],
    [tinyflu], [s3fifo] and [s3-fifo] replace the strategy object by a new
    one of the named policy with capacity 5; for every other input the
    invalid-selection notice is printed. *)
Theorem set_cache_strategy_by_name (strategy : string) (c : CacheStrategy) :
  let strat := transform_tolower (strip (Ascii.eqb " ") strategy) in
  (strat = "lirs" →
     set_cache_strategy strategy (mkDB (Live c)) =
       Returns () (mkDB (Live (new_LIRSCache 5)))
         [DebugRawInput strategy; DebugProcessed strat; StrategySetTo "LIRS"]) ∧
  (strat = "tinyflu" →
     set_cache_strategy strategy (mkDB (Live c)) =
       Returns () (mkDB (Live (new_TinyFLUCache 5)))
         [DebugRawInput strategy; DebugProcessed strat; StrategySetTo "TinyFLU"]) ∧
  (strat = "s3fifo" ∨ strat = "s3-fifo" →
     set_cache_strategy strategy (mkDB (Live c)) =
       Returns () (mkDB (Live (new_S3FIFOCache 5)))
         [DebugRawInput strategy; DebugProcessed strat; StrategySetTo "S3-FIFO"]) ∧
  (strat ∉ ["lirs"; "tinyflu"; "s3fifo"; "s3-fifo"] →
     InvalidStrategy ∈ stdout (set_cache_strategy strategy (mkDB (Live c)))).
Proof.
  simpl. rewrite <- trim_strips_spaces, set_cache_strategy_unfold. simpl.
  repeat split.
  - intros ->. done.
  - intros ->. done.
  - intros [-> | ->]; done.
  - intros Hout. rewrite !not_elem_of_cons in Hout.
    destruct Hout as (? & ? & ? & ? & _).
    repeat case_decide; try tauto. simpl. set_solver.
Qed.

Lemma set_cache_strategy_by_name_witness :
  set_cache_strategy "  TinyFLU " new_DatabaseSystem =
    Returns () (mkDB (Live (new_TinyFLUCache 5)))
      [DebugRawInput "  TinyFLU "; DebugProcessed "tinyflu";
       StrategySetTo "TinyFLU"].
Proof.
  apply (proj1 (proj2 (set_cache_strategy_by_name "  TinyFLU " (new_LIRSCache 5)))).
  reflexivity.
Defined.

(** ** Sequences and bookkeeping *)

Lemma erase_remove_absent query d : query ∉ d → erase_remove query d = d.
Proof.
  unfold erase_remove. induction d as [|x d IH]; [done|].
  intros [Hx Hd]%not_elem_of_cons.
  rewrite filter_cons_True by done. by rewrite IH.
Qed.

Lemma erase_remove_head query d :
  NoDup (query :: d) → erase_remove query (query :: d) = d.
Proof.
  intros [Hx _]%NoDup_cons. unfold erase_remove.
  rewrite filter_cons_False by (by intros []).
  by apply erase_remove_absent.
Qed.

Lemma erase_remove_perm query d :
  NoDup d → query ∈ d → erase_remove query d ++ [query] ≡ₚ d.
Proof.
  induction d as [|x d IH]; [by intros _ ?%elem_of_nil|].
  intros [Hx Hd]%NoDup_cons Hin. destruct (decide (x = query)) as [->|Hne].
  - rewrite erase_remove_head by (by apply NoDup_cons).
    symmetry. apply Permutation_cons_append.
  - unfold erase_remove. rewrite filter_cons_True by done. simpl.
    apply Permutation_skip, IH; [done|].
    apply elem_of_cons in Hin as [?|?]; [congruence|done].
Qed.

Lemma find_erase_head query d : find_erase query (query :: d) = Some d.
Proof. simpl. by rewrite decide_True. Qed.

Lemma find_erase_absent query d : query ∉ d → find_erase query d = None.
Proof.
  induction d as [|x d IH]; [done|].
  intros [Hx Hd]%not_elem_of_cons. simpl.
  rewrite decide_False by done. by rewrite IH.
Qed.

Lemma find_erase_present query d :
  query ∈ d → ∃ d', find_erase query d = Some d' ∧ d ≡ₚ query :: d'.
Proof.
  induction d as [|x d IH]; [by intros ?%elem_of_nil|].
  intros Hin. simpl. destruct (decide (x = query)) as [->|Hne]; [by eexists|].
  apply elem_of_cons in Hin as [?|Hin]; [congruence|].
  destruct (IH Hin) as (d' & -> & Hperm). eexists. split; [done|].
  rewrite Hperm. apply Permutation_swap.
Qed.

Lemma consistent_dom c :
  consistent c → dom (cache c) = list_to_set (sequences (derived c)).
Proof.
  intros Hc. apply set_eq. intros k.
  by rewrite elem_of_dom, elem_of_list_to_set, (seq_store _ Hc).
Qed.

Lemma consistent_size c :
  consistent c → size (cache c) = length (sequences (derived c)).
Proof.
  intros Hc. rewrite <- size_dom, (consistent_dom _ Hc).
  apply size_list_to_set, Hc.
Qed.

Lemma consistent_new k cap : consistent (new_cache k cap).
Proof.
  destruct k; split; simpl; try done.
  all: try (intros k; rewrite lookup_empty; split; [by intros ?%elem_of_nil|by intros []]).
  all: try by apply NoDup_nil.
  all: try by apply not_elem_of_nil.
  split; by intros k ?%elem_of_nil.
Qed.

Lemma LIRS_update_eq query p :
  LIRS_update query p =
    if decide (in_high p !! query = Some true) then
      mkLIRS (erase_remove query (high_interference_list p) ++ [query])
             (low_interference_list p) (in_high p)
    else
      mkLIRS (high_interference_list p ++ [query])
             (erase_remove query (low_interference_list p))
             (<[query := true]> (in_high p)).
Proof.
  unfold LIRS_update, subscript.
  destruct (in_high p !! query) as [[|]|] eqn:Hq; simpl.
  - done.
  - done.
  - by rewrite insert_insert_eq.
Qed.

Lemma elem_of_erase_remove query d k :
  k ∈ erase_remove query d ↔ k ≠ query ∧ k ∈ d.
Proof. unfold erase_remove. by rewrite list_elem_of_filter. Qed.

Lemma update_kind_of query c : kind_of (update query c) = kind_of c.
Proof. unfold kind_of, update. by destruct (derived c). Qed.

Lemma update_sequences_perm c query :
  consistent c → is_Some (cache c !! query) →
  sequences (derived (update query c)) ≡ₚ sequences (derived c).
Proof.
  intros [Hnd Hst Hfl Hse] Hin%Hst. unfold update.
  destruct (derived c) as [[high low ih]|[q]|[s md l]]; simpl in *.
  - rewrite LIRS_update_eq. simpl. destruct Hfl as [Hhigh Hlow].
    apply NoDup_app in Hnd as (Hndh & _ & Hndl).
    case_decide as Hq; simpl.
    + assert (query ∈ high) as Hqh.
      { apply elem_of_app in Hin as [?|Hl]; [done|]. by apply Hlow in Hl. }
      by rewrite (erase_remove_perm _ _ Hndh Hqh).
    + assert (query ∈ low) as Hql.
      { apply elem_of_app in Hin as [Hh|?]; [|done]. by apply Hhigh in Hh. }
      rewrite <- (erase_remove_perm query low Hndl Hql) at 2.
      solve_Permutation.
  - by apply erase_remove_perm.
  - unfold S3FIFO_update. simpl. destruct (decide (query ∈ s)) as [Hs|Hs].
    + destruct (find_erase_present _ _ Hs) as (s' & -> & Hp). simpl.
      rewrite Hp. solve_Permutation.
    + rewrite (find_erase_absent _ _ Hs).
      destruct (decide (query ∈ md)) as [Hm|Hm].
      * destruct (find_erase_present _ _ Hm) as (md' & -> & Hp). simpl.
        rewrite Hp. solve_Permutation.
      * rewrite (find_erase_absent _ _ Hm).
        assert (query ∈ l) as Hl by (rewrite !elem_of_app in Hin; tauto).
        destruct (find_erase_present _ _ Hl) as (l' & -> & Hp). simpl.
        rewrite Hp. solve_Permutation.
Qed.

Lemma update_consistent c query :
  consistent c → is_Some (cache c !! query) → consistent (update query c).
Proof.
  intros Hc Hin. pose proof (update_sequences_perm _ _ Hc Hin) as Hperm.
  destruct Hc as [Hnd Hst Hfl Hse]. split.
  - by rewrite Hperm.
  - intros k. by rewrite Hperm, update_cache.
  - apply Hst in Hin. clear Hperm. unfold update.
    destruct (derived c) as [[high low ih]|[q]|[s md l]]; simpl in *; try done.
    rewrite LIRS_update_eq. simpl. destruct Hfl as [Hhigh Hlow].
    case_decide as Hq; simpl.
    + split; [|done]. intros k [Hk|Hk]%elem_of_app.
      * apply Hhigh. by apply elem_of_erase_remove in Hk as [_ ?].
      * by apply list_elem_of_singleton in Hk as ->.
    + split.
      * intros k [Hk|Hk]%elem_of_app.
        -- rewrite lookup_insert. case_decide; [done|]. by apply Hhigh.
        -- apply list_elem_of_singleton in Hk as ->. apply lookup_insert_eq.
      * intros k [Hne Hk]%elem_of_erase_remove.
        rewrite lookup_insert_ne by done. by apply Hlow.
  - unfold sentinel_free in *. revert Hse Hperm. unfold update.
    destruct (derived c); simpl; try done.
    + intros Hse Hperm. by rewrite Hperm.
    + intros Hse Hperm. by rewrite Hperm.
Qed.

Lemma delete_head_store {V} (m : gmap string V) v t :
  NoDup (v :: t) → (∀ k, k ∈ v :: t ↔ is_Some (m !! k)) →
  ∀ k, k ∈ t ↔ is_Some (delete v m !! k).
Proof.
  intros [Hv _]%NoDup_cons Hst k.
  rewrite lookup_delete_is_Some, <- Hst, elem_of_cons. split.
  - intros Hk. split; [|by right]. by intros ->.
  - intros [Hne [->|Hk]]; done.
Qed.

Lemma begin_key_empty {V} (m : gmap string V) :
  (∀ k, ¬ is_Some (m !! k)) → begin_key m = None.
Proof.
  intros Hm. unfold begin_key.
  assert (m = ∅) as ->.
  { apply map_empty. intros k. specialize (Hm k).
    by apply eq_None_not_Some. }
  by rewrite map_to_list_empty.
Qed.

Lemma evict_consistent_nil c :
  consistent c → sequences (derived c) = [] → evict c = (c, []).
Proof.
  intros [Hnd Hst Hfl Hse] Hnil.
  assert (begin_key (cache c) = None) as Hb.
  { apply begin_key_empty. intros k. rewrite <- Hst, Hnil. apply not_elem_of_nil. }
  destruct c as [cap m h ms [[high low ih]|[q]|[s md l]]];
    unfold evict; simpl in *.
  - apply app_eq_nil in Hnil as [-> ->]. unfold LIRS_evict. simpl. by rewrite Hb.
  - by subst q.
  - apply app_eq_nil in Hnil as [-> [-> ->]%app_eq_nil].
    unfold S3FIFO_evict. simpl. by rewrite Hb.
Qed.

Lemma evict_consistent_cons c v t :
  consistent c → sequences (derived c) = v :: t →
  ∃ c', evict c = (c', [evicted (kind_of c) v]) ∧
        cache c' = delete v (cache c) ∧
        sequences (derived c') = t ∧
        consistent c' ∧
        (unpromoted (derived c) → unpromoted (derived c')) ∧
        capacity c' = capacity c ∧ kind_of c' = kind_of c.
Proof.
  intros [Hnd Hst Hfl Hse] Hseq. rewrite Hseq in Hnd, Hst.
  pose proof (delete_head_store _ _ _ Hnd Hst) as Hst'.
  pose proof Hnd as [Hv Hnd']%NoDup_cons.
  destruct c as [cap m h ms [[high low ih]|[q]|[s md l]]];
    unfold evict, kind_of; simpl in *.
  - rewrite Hseq in Hse. apply not_elem_of_cons in Hse as [Hne Hse].
    destruct Hfl as [Hhigh Hlow]. unfold LIRS_evict. simpl.
    destruct high as [|v' high]; simpl in Hseq.
    + subst low. simpl. rewrite decide_False by done. simpl.
      eexists. split; [done|]. do 2 (split; [done|]).
      split; [|done]. split; simpl; [done|done| |done]. split.
      * intros k Hk. by apply elem_of_nil in Hk.
      * intros k Hk. rewrite lookup_delete_ne by (by intros ->).
        apply Hlow. by right.
    + injection Hseq as -> <-. simpl. rewrite decide_False by done. simpl.
      eexists. split; [done|]. do 2 (split; [done|]).
      split; [|done]. split; simpl; [done|done| |done]. split.
      * intros k Hk. rewrite lookup_delete_ne.
        -- apply Hhigh. by right.
        -- intros ->. apply Hv. apply elem_of_app. by left.
      * intros k Hk. rewrite lookup_delete. case_decide; [done|]. by apply Hlow.
  - subst q. simpl. eexists. split; [done|]. do 2 (split; [done|]).
    split; [|done]. by split.
  - rewrite Hseq in Hse. apply not_elem_of_cons in Hse as [Hne Hse].
    unfold S3FIFO_evict. simpl.
    destruct s as [|v' s]; simpl in Hseq.
    + destruct md as [|v' md]; simpl in Hseq.
      * subst l. simpl. rewrite decide_False by done. simpl.
        eexists. split; [done|]. do 2 (split; [done|]).
        split; [by split|]. split; [|done]. by intros [_ ?].
      * injection Hseq as -> <-. simpl. rewrite decide_False by done. simpl.
        eexists. split; [done|]. do 2 (split; [done|]).
        split; [by split|]. split; [|done]. by intros [? _].
    + injection Hseq as -> <-. simpl. rewrite decide_False by done. simpl.
      eexists. split; [done|]. do 2 (split; [done|]).
      split; [by split|]. split; [|done]. by intros [-> ->].
Qed.

Lemma admit_sequences_perm query c :
  sequences (derived (admit_ query c)) ≡ₚ query :: sequences (derived c).
Proof.
  unfold admit_. destruct (derived c) as [[high low ih]|[q]|[s md l]]; simpl;
    solve_Permutation.
Qed.

Lemma admit_sequences_unpromoted query c :
  unpromoted (derived c) →
  sequences (derived (admit_ query c)) = sequences (derived c) ++ [query] ∧
  unpromoted (derived (admit_ query c)).
Proof.
  unfold admit_. destruct (derived c) as [[high low ih]|[q]|[s md l]]; simpl.
  - intros ->. by rewrite !app_nil_r.
  - done.
  - intros [-> ->]. by rewrite !app_nil_r.
Qed.

Lemma admit_kind_of query c : kind_of (admit_ query c) = kind_of c.
Proof. unfold kind_of, admit_. by destruct (derived c). Qed.

Lemma admit_consistent c query result :
  consistent c → cache c !! query = None → insertable (kind_of c) query →
  consistent (admit_ query (set_cache (<[query := result]> (cache c)) c)).
Proof.
  intros [Hnd Hst Hfl Hse] Hout Hins.
  assert (query ∉ sequences (derived c)) as Hfresh.
  { rewrite Hst, Hout. by intros []. }
  split.
  - rewrite admit_sequences_perm. simpl. by apply NoDup_cons.
  - intros k. rewrite admit_sequences_perm, admit_cache. simpl.
    rewrite lookup_insert_is_Some, elem_of_cons, Hst.
    split.
    + intros [Heq|Hk]; [by left|].
      destruct (decide (query = k)); [by left|by right].
    + intros [Heq|[Hne Hk]]; [by left|by right].
  - unfold admit_, set_cache. simpl.
    destruct (derived c) as [[high low ih]|[q]|[s md l]]; simpl in *; try done.
    destruct Hfl as [Hhigh Hlow]. split.
    + intros k [Hk|Hk]%elem_of_app.
      * rewrite lookup_insert. case_decide; [done|]. by apply Hhigh.
      * apply list_elem_of_singleton in Hk as ->. apply lookup_insert_eq.
    + intros k Hk. rewrite lookup_insert_ne; [by apply Hlow|].
      intros ->. apply Hfresh, elem_of_app. by right.
  - assert ("" ∉ query :: sequences (derived c) ∨ kind_of c = KTinyFLU) as Hs.
    { destruct Hins as [?|Hne]; [by right|].
      unfold sentinel_free, kind_of in *. destruct (derived c); auto.
      all: left; apply not_elem_of_cons; split; done. }
    pose proof (admit_sequences_perm query
                  (set_cache (<[query := result]> (cache c)) c)) as Hperm.
    revert Hs Hperm. unfold admit_, set_cache, sentinel_free, kind_of. simpl.
    destruct (derived c); simpl.
    + intros [Hs|?] Hperm; [|done]. by rewrite Hperm.
    + done.
    + intros [Hs|?] Hperm; [|done]. by rewrite Hperm.
Qed.

(** The test [cache.size() >= (size_t)capacity] for a positive capacity. *)
Lemma to_size_t_small cap : 0 ≤ cap < 2 ^ 64 → to_size_t cap = cap.
Proof. intros ?. unfold to_size_t. by apply Z.mod_small. Qed.

Lemma put_fresh_room c query result :
  consistent c → cache c !! query = None → insertable (kind_of c) query →
  Z.of_nat (size (cache c)) < to_size_t (capacity c) →
  ∃ c', put query result c = (c', []) ∧
        cache c' = <[query := result]> (cache c) ∧
        consistent c' ∧
        (unpromoted (derived c) →
           sequences (derived c') = sequences (derived c) ++ [query] ∧
           unpromoted (derived c')) ∧
        capacity c' = capacity c ∧ kind_of c' = kind_of c.
Proof.
  intros Hc Hout Hins Hroom. rewrite (put_absent _ _ _ Hout).
  replace (to_size_t (capacity c) <=? Z.of_nat (size (cache c)))%Z with false
    by (symmetry; apply Z.leb_gt; lia).
  eexists. split; [done|].
  rewrite admit_cache, admit_capacity, admit_kind_of. simpl.
  split; [done|]. split; [by apply admit_consistent|].
  split; [|done]. intros Hun.
  by apply (admit_sequences_unpromoted query
              (set_cache (<[query := result]> (cache c)) c)).
Qed.

Lemma put_fresh_full c query result v t :
  consistent c → sequences (derived c) = v :: t →
  cache c !! query = None → insertable (kind_of c) query →
  to_size_t (capacity c) ≤ Z.of_nat (size (cache c)) →
  ∃ c', put query result c = (c', [evicted (kind_of c) v]) ∧
        cache c' = <[query := result]> (delete v (cache c)) ∧
        consistent c' ∧
        (unpromoted (derived c) →
           sequences (derived c') = t ++ [query] ∧ unpromoted (derived c')) ∧
        capacity c' = capacity c ∧ kind_of c' = kind_of c.
Proof.
  intros Hc Hseq Hout Hins Hfull. rewrite (put_absent _ _ _ Hout).
  replace (to_size_t (capacity c) <=? Z.of_nat (size (cache c)))%Z with true
    by (symmetry; apply Z.leb_le; lia).
  destruct (evict_consistent_cons _ _ _ Hc Hseq)
    as (c1 & -> & Hcache & Hseq1 & Hc1 & Hun1 & Hcap1 & Hkind1).
  simpl. eexists. split; [done|].
  rewrite admit_cache, admit_capacity, admit_kind_of. simpl.
  rewrite Hcache. split; [done|]. rewrite <- Hcache. split.
  { apply admit_consistent; [done| |by rewrite Hkind1].
    rewrite Hcache. apply lookup_delete_None. by right. }
  split; [|done]. intros Hun. rewrite <- Hseq1.
  by apply (admit_sequences_unpromoted query
              (set_cache (<[query := result]> (cache c1)) c1)), Hun1.
Qed.

Lemma get_consistent c query : consistent c → consistent (get query c).2.
Proof.
  intros Hc. destruct (cache c !! query) as [v|] eqn:Hq.
  - rewrite (get_hit _ _ _ Hq). simpl. apply update_consistent; [|by simpl].
    by destruct Hc.
  - rewrite (get_miss _ _ Hq). simpl. by destruct Hc.
Qed.

Lemma put_consistent c query result :
  consistent c → insertable (kind_of c) query → 0 < capacity c < 2 ^ 64 →
  Z.of_nat (size (cache c)) ≤ capacity c →
  consistent (put query result c).1 ∧
  Z.of_nat (size (cache (put query result c).1)) ≤ capacity c.
Proof.
  intros Hc Hins Hcap Hsize. destruct (cache c !! query) as [v|] eqn:Hq.
  - rewrite (put_present _ _ _ _ Hq). simpl. rewrite update_cache.
    split; [by apply update_consistent|done].
  - destruct (decide (Z.of_nat (size (cache c)) < capacity c)) as [Hroom|Hfull].
    + destruct (put_fresh_room c query result Hc Hq Hins)
        as (c' & -> & Hcache & Hc' & _); [by rewrite to_size_t_small by lia|].
      simpl. split; [done|]. rewrite Hcache, map_size_insert_None by done. lia.
    + destruct (sequences (derived c)) as [|v t] eqn:Hseq.
      { rewrite (consistent_size _ Hc), Hseq in Hfull. simpl in Hfull. lia. }
      destruct (put_fresh_full c query result v t Hc Hseq Hq Hins)
        as (c' & -> & Hcache & Hc' & _); [rewrite to_size_t_small by lia; lia|].
      simpl. split; [done|]. rewrite Hcache.
      rewrite map_size_insert_None by (apply lookup_delete_None; by right).
      assert (is_Some (cache c !! v)) as Hv.
      { apply (seq_store _ Hc). rewrite Hseq. by left. }
      rewrite (map_size_delete_Some _ _ Hv).
      assert (size (cache c) ≠ 0%nat).
      { rewrite (consistent_size _ Hc), Hseq. done. }
      lia.
Qed.

Lemma evict_kind_of c : kind_of (evict c).1 = kind_of c.
Proof.
  unfold evict, kind_of. destruct (derived c) as [p|p|p].
  - by destruct (LIRS_evict (cache c) p) as [[??]?].
  - by destruct (TinyFLU_evict (cache c) p) as [[??]?].
  - by destruct (S3FIFO_evict (cache c) p) as [[??]?].
Qed.

Lemma run_call_capacity op c : capacity (run_call op c).1 = capacity c.
Proof.
  destruct op as [query|query result]; simpl.
  - unfold get. destruct (cache c !! query); [|done].
    destruct (subscript _ _ _). simpl. by rewrite update_capacity.
  - unfold put. destruct (cache c !! query); simpl; [apply update_capacity|].
    destruct (to_size_t (capacity c) <=? Z.of_nat (size (cache c)))%Z.
    + pose proof (evict_capacity c) as He. destruct (evict c) as [c1 out].
      simpl in *. by rewrite admit_capacity.
    + simpl. by rewrite admit_capacity.
Qed.

Lemma run_call_kind_of op c : kind_of (run_call op c).1 = kind_of c.
Proof.
  destruct op as [query|query result]; simpl.
  - unfold get. destruct (cache c !! query); [|done].
    destruct (subscript _ _ _) eqn:Hs. simpl.
    pose proof (update_kind_of query
      (mkCache (capacity c) (cache c) (incr (cache_hits c)) (cache_misses c)
               (derived c))) as Hk.
    unfold kind_of, set_cache in *. simpl in *. done.
  - unfold put. destruct (cache c !! query); simpl; [apply update_kind_of|].
    destruct (to_size_t (capacity c) <=? Z.of_nat (size (cache c)))%Z.
    + pose proof (evict_kind_of c) as He. destruct (evict c) as [c1 out].
      simpl in *. by rewrite admit_kind_of.
    + simpl. by rewrite admit_kind_of.
Qed.

Lemma run_call_consistent op c :
  consistent c → insertable_call (kind_of c) op → 0 < capacity c < 2 ^ 64 →
  Z.of_nat (size (cache c)) ≤ capacity c →
  consistent (run_call op c).1 ∧
  Z.of_nat (size (cache (run_call op c).1)) ≤ capacity c.
Proof.
  intros Hc Hop Hcap Hsize. destruct op as [query|query result]; simpl.
  - split; [by apply get_consistent|].
    destruct (cache c !! query) as [v|] eqn:Hq.
    + rewrite (get_hit _ _ _ Hq). simpl. by rewrite update_cache.
    + by rewrite (get_miss _ _ Hq).
  - by apply put_consistent.
Qed.

Lemma run_calls_consistent ops c :
  consistent c → Forall (insertable_call (kind_of c)) ops →
  0 < capacity c < 2 ^ 64 → Z.of_nat (size (cache c)) ≤ capacity c →
  consistent (run_calls ops c).1 ∧
  Z.of_nat (size (cache (run_calls ops c).1)) ≤ capacity c.
Proof.
  revert c. induction ops as [|op ops IH]; intros c Hc Hops Hcap Hsize; [done|].
  apply Forall_cons in Hops as [Hop Hops]. simpl.
  destruct (run_call_consistent op c Hc Hop Hcap Hsize) as [Hc1 Hsize1].
  pose proof (run_call_capacity op c) as Hcap1.
  pose proof (run_call_kind_of op c) as Hk1.
  destruct (run_call op c) as [c1 out1]. simpl in *.
  rewrite <- Hcap1 in Hcap, Hsize1. rewrite <- Hk1 in Hops.
  destruct (IH c1 Hc1 Hops Hcap Hsize1) as [Hc2 Hsize2].
  destruct (run_calls ops c1) as [c2 out2]. simpl in *.
  by rewrite <- Hcap1.
Qed.

(** The bound holds after every call when the capacity is positive and no
    empty key is inserted into a [LIRSCache] or an [S3FIFOCache]; for a
    [TinyFLUCache], which erases its victim unconditionally, it holds for
    every run. *)
Lemma capacity_invariant_when_victims_are_erased k cap ops :
  0 < cap < 2 ^ 64 → Forall (insertable_call k) ops →
  Z.of_nat (size (cache (run_calls ops (new_cache k cap)).1)) ≤ cap.
Proof.
  intros Hcap Hops.
  assert (kind_of (new_cache k cap) = k) as Hk by (by destruct k).
  assert (capacity (new_cache k cap) = cap) as Hc by (by destruct k).
  destruct (run_calls_consistent ops (new_cache k cap)) as [_ Hsize].
  - apply consistent_new.
  - by rewrite Hk.
  - by rewrite Hc.
  - rewrite Hc. destruct k; simpl; rewrite map_size_empty; lia.
  - by rewrite Hc in Hsize.
Qed.

Lemma tracks_new k cap : tracks k cap [] (new_cache k cap).
Proof. split; [apply consistent_new|]. by destruct k. Qed.

Lemma tracks_size k cap q c : tracks k cap q c → size (cache c) = length q.
Proof. intros (Hc & _ & <- & _). by apply consistent_size. Qed.

Lemma tracks_absent k cap q c query :
  tracks k cap q c → query ∉ q → cache c !! query = None.
Proof.
  intros (Hc & _ & <- & _) Hq. apply eq_None_not_Some.
  by rewrite <- (seq_store _ Hc).
Qed.

Lemma tracks_put_room k cap q c query result :
  tracks k cap q c → query ∉ q → insertable k query →
  Z.of_nat (length q) < cap < 2 ^ 64 →
  ∃ c', put query result c = (c', []) ∧
        cache c' = <[query := result]> (cache c) ∧
        tracks k cap (q ++ [query]) c'.
Proof.
  intros Ht Hq Hins Hcap.
  pose proof (tracks_size _ _ _ _ Ht) as Hsize.
  pose proof (tracks_absent _ _ _ _ _ Ht Hq) as Hout.
  destruct Ht as (Hc & Hun & Hseq & Hcapc & Hk).
  destruct (put_fresh_room c query result Hc Hout)
    as (c' & Hput & Hcache & Hc' & Hun' & Hcap' & Hk').
  - by rewrite Hk.
  - rewrite Hcapc, to_size_t_small by lia. lia.
  - exists c'. split; [done|]. split; [done|].
    destruct (Hun' Hun) as [Hseq' ?]. unfold tracks.
    by rewrite Hseq', Hseq, Hcap', Hk'.
Qed.

Lemma tracks_put_full k cap v q c query result :
  tracks k cap (v :: q) c → query ∉ v :: q → insertable k query →
  0 ≤ cap ≤ Z.of_nat (length (v :: q)) → cap < 2 ^ 64 →
  ∃ c', put query result c = (c', [evicted k v]) ∧
        cache c' = <[query := result]> (delete v (cache c)) ∧
        tracks k cap (q ++ [query]) c'.
Proof.
  intros Ht Hq Hins Hcap Hmax.
  pose proof (tracks_size _ _ _ _ Ht) as Hsize.
  pose proof (tracks_absent _ _ _ _ _ Ht Hq) as Hout.
  destruct Ht as (Hc & Hun & Hseq & Hcapc & Hk).
  destruct (put_fresh_full c query result v q Hc Hseq Hout)
    as (c' & Hput & Hcache & Hc' & Hun' & Hcap' & Hk').
  - by rewrite Hk.
  - rewrite Hcapc, to_size_t_small by lia. lia.
  - exists c'. rewrite <- Hk. split; [done|]. split; [done|].
    destruct (Hun' Hun) as [Hseq' ?]. unfold tracks.
    by rewrite Hseq', Hcap', Hk'.
Qed.

Lemma update_head_sequences c query t :
  consistent c → unpromoted (derived c) →
  sequences (derived c) = query :: t →
  sequences (derived (update query c)) = t ++ [query].
Proof.
  intros [Hnd Hst Hfl Hse] Hun Hseq. rewrite Hseq in Hnd. unfold update.
  destruct (derived c) as [[high low ih]|[q]|[s md l]]; simpl in *.
  - subst low. rewrite app_nil_r in Hseq. subst high.
    destruct Hfl as [Hhigh _]. rewrite LIRS_update_eq. simpl.
    rewrite decide_True by (apply Hhigh; by left). simpl.
    by rewrite app_nil_r, erase_remove_head.
  - subst q. by rewrite erase_remove_head.
  - destruct Hun as [-> ->]. rewrite !app_nil_r in Hseq. subst s.
    unfold S3FIFO_update. simpl. by rewrite decide_True by done.
Qed.

Lemma tracks_get_head k cap query t c :
  tracks k cap (query :: t) c →
  ∃ v c', get query c = (v, c') ∧ cache c !! query = Some v ∧
          cache c' = cache c ∧ cache_hits c' = incr (cache_hits c) ∧
          consistent c' ∧ sequences (derived c') = t ++ [query] ∧
          capacity c' = cap ∧ kind_of c' = k.
Proof.
  intros (Hc & Hun & Hseq & Hcap & Hk).
  assert (is_Some (cache c !! query)) as [v Hv].
  { apply (seq_store _ Hc). rewrite Hseq. by left. }
  exists v. eexists. split; [by apply get_hit|]. split; [done|].
  set (c1 := mkCache _ _ _ _ _).
  assert (consistent c1) as Hc1 by (by destruct Hc).
  rewrite update_cache, update_cache_hits, update_capacity, update_kind_of.
  do 2 (split; [done|]).
  split; [by apply update_consistent; [|simpl; rewrite Hv]|].
  split; [by apply update_head_sequences|done].
Qed.

Ltac distinct_keys :=
  repeat match goal with
  | H : NoDup (_ :: _) |- _ => apply NoDup_cons in H as [? H]
  | H : _ ∉ _ :: _ |- _ => apply not_elem_of_cons in H as [? H]
  end.

Ltac fresh_key :=
  simpl;
  first
    [ apply not_elem_of_nil
    | rewrite !not_elem_of_cons; repeat split;
      first [ congruence | apply not_elem_of_nil ]
    | right; congruence
    | simpl; lia ].

(** Six insertions of distinct non-empty keys into a new cache of capacity
    5: the first five fill it without output, the sixth evicts the first. *)
Lemma six_puts_evict_the_first
    (k : kind) (K1 K2 K3 K4 K5 K6 v1 v2 v3 v4 v5 v6 : string) :
  NoDup [K1; K2; K3; K4; K5; K6] →
  "" ∉ [K1; K2; K3; K4; K5; K6] →
  ∃ c5 c6,
    run_calls [Put K1 v1; Put K2 v2; Put K3 v3; Put K4 v4; Put K5 v5]
              (new_cache k 5) = (c5, []) ∧
    cache c5 =
      <[K5 := v5]> (<[K4 := v4]> (<[K3 := v3]> (<[K2 := v2]> (<[K1 := v1]> ∅)))) ∧
    put K6 v6 c5 = (c6, [evicted k K1]) ∧
    cache c6 = <[K6 := v6]> (delete K1 (cache c5)) ∧
    cache c6 !! K1 = None ∧
    (∀ K, is_Some (cache c6 !! K) ↔ K ∈ [K2; K3; K4; K5; K6]) ∧
    sequences (derived c6) = [K2; K3; K4; K5; K6].
Proof.
  intros Hnd Hne. distinct_keys.
  destruct (tracks_put_room k 5 [] (new_cache k 5) K1 v1 (tracks_new k 5))
    as (c1 & E1 & M1 & T1); [fresh_key..|]; simpl in *.
  destruct (tracks_put_room k 5 _ c1 K2 v2 T1)
    as (c2 & E2 & M2 & T2); [fresh_key..|]; simpl in *.
  destruct (tracks_put_room k 5 _ c2 K3 v3 T2)
    as (c3 & E3 & M3 & T3); [fresh_key..|]; simpl in *.
  destruct (tracks_put_room k 5 _ c3 K4 v4 T3)
    as (c4 & E4 & M4 & T4); [fresh_key..|]; simpl in *.
  destruct (tracks_put_room k 5 _ c4 K5 v5 T4)
    as (c5 & E5 & M5 & T5); [fresh_key..|]; simpl in *.
  destruct (tracks_put_full k 5 _ _ c5 K6 v6 T5)
    as (c6 & E6 & M6 & T6); [fresh_key..|]; simpl in *.
  exists c5, c6. simpl. rewrite E1, E2, E3, E4, E5. simpl.
  split; [done|]. split.
  { rewrite M5, M4, M3, M2, M1. by destruct k. }
  split; [done|]. split; [done|].
  destruct T6 as (Hc6 & _ & Hseq6 & _). simpl in Hseq6.
  split; [|split; [|done]].
  - apply eq_None_not_Some. rewrite <- (seq_store _ Hc6), Hseq6. fresh_key.
  - intros K. by rewrite <- (seq_store _ Hc6), Hseq6.
Qed.

(** Five insertions, a hit on the first key, a sixth insertion: the second
    key is evicted, for the three policies, when no empty key is inserted
    into a [LIRSCache] or an [S3FIFOCache]. *)
Lemma hit_on_first_then_second_is_evicted
    (k : kind) (K1 K2 K3 K4 K5 K6 v1 v2 v3 v4 v5 v6 : string) :
  NoDup [K1; K2; K3; K4; K5; K6] →
  Forall (insertable k) [K1; K2; K3; K4; K5; K6] →
  ∃ c5 c5' c6,
    run_calls [Put K1 v1; Put K2 v2; Put K3 v3; Put K4 v4; Put K5 v5]
              (new_cache k 5) = (c5, []) ∧
    get K1 c5 = (v1, c5') ∧
    cache_hits c5' = incr (cache_hits c5) ∧
    sequences (derived c5') = [K2; K3; K4; K5; K1] ∧
    put K6 v6 c5' = (c6, [evicted k K2]) ∧
    cache c6 = <[K6 := v6]> (delete K2 (cache c5)) ∧
    cache c6 !! K2 = None ∧ cache c6 !! K1 = Some v1.
Proof.
  intros Hnd Hins. distinct_keys.
  repeat match goal with
         | H : Forall _ (_ :: _) |- _ => apply Forall_cons in H as [? H]
         end.
  destruct (tracks_put_room k 5 [] (new_cache k 5) K1 v1 (tracks_new k 5))
    as (c1 & E1 & M1 & T1); [fresh_key|done|fresh_key|]; simpl in *.
  destruct (tracks_put_room k 5 _ c1 K2 v2 T1)
    as (c2 & E2 & M2 & T2); [fresh_key|done|fresh_key|]; simpl in *.
  destruct (tracks_put_room k 5 _ c2 K3 v3 T2)
    as (c3 & E3 & M3 & T3); [fresh_key|done|fresh_key|]; simpl in *.
  destruct (tracks_put_room k 5 _ c3 K4 v4 T3)
    as (c4 & E4 & M4 & T4); [fresh_key|done|fresh_key|]; simpl in *.
  destruct (tracks_put_room k 5 _ c4 K5 v5 T4)
    as (c5 & E5 & M5 & T5); [fresh_key|done|fresh_key|]; simpl in *.
  destruct (tracks_get_head k 5 K1 _ c5 T5)
    as (w & c5' & G & Hw & Mg & Hh & Hc & Hseq & Hcap & Hk); simpl in *.
  assert (cache c5 !! K1 = Some v1) as Hv1.
  { rewrite M5, M4, M3, M2, M1.
    rewrite !lookup_insert_ne by congruence. apply lookup_insert_eq. }
  assert (w = v1) as -> by congruence.
  assert (cache c5' !! K6 = None) as Hout.
  { apply eq_None_not_Some. rewrite <- (seq_store _ Hc), Hseq. fresh_key. }
  destruct (put_fresh_full c5' K6 v6 K2 _ Hc Hseq Hout)
    as (c6 & E6 & M6 & _); [by rewrite Hk| |].
  { rewrite Hcap, Mg, (tracks_size _ _ _ _ T5). done. }
  exists c5, c5', c6. rewrite E1, E2, E3, E4, E5. simpl.
  rewrite <- Hk, <- Mg. do 5 (split; [done|]). split; [done|].
  rewrite M6. split.
  - apply lookup_insert_None. split; [|congruence]. apply lookup_delete_eq.
  - rewrite lookup_insert_ne, lookup_delete_ne by congruence. by rewrite Mg.
Qed.

Lemma tracks_get_miss k cap q c query :
  tracks k cap q c → cache c !! query = None →
  tracks k cap q (get query c).2.
Proof.
  intros (Hc & Hun & Hseq & Hcap & Hk) Hq. rewrite (get_miss _ _ Hq). simpl.
  split; [by destruct Hc|done].
Qed.

Lemma hit_free_run k cap q c ops :
  0 < cap < 2 ^ 64 → tracks k cap q c → Z.of_nat (length q) ≤ cap →
  NoDup (q ++ inserted ops) → Forall (insertable k) (inserted ops) →
  hit_free ops c →
  let n := (length q + length (inserted ops) - Z.to_nat cap)%nat in
  ∃ c', run_calls ops c = (c', evicted k <$> take n (q ++ inserted ops)) ∧
        tracks k cap (drop n (q ++ inserted ops)) c'.
Proof.
  intros Hcap. revert q c.
  induction ops as [|[query|key val] ops IH];
    intros q c Ht Hlen Hnd Hins Hfree.
  - simpl. replace (length q + 0 - Z.to_nat cap)%nat with 0%nat by lia.
    exists c. simpl. by rewrite app_nil_r.
  - destruct Hfree as [Hmiss Hfree].
    change (inserted (Get query :: ops)) with (inserted ops) in *.
    destruct (IH q (get query c).2) as (c2 & Hrun & T2); try done.
    { by apply tracks_get_miss. }
    exists c2. split; [|done].
    change (run_calls (Get query :: ops) c)
      with (let '(c2, out2) := run_calls ops (get query c).2 in (c2, [] ++ out2)).
    by rewrite Hrun.
  - destruct Hfree as [_ Hfree].
    change (inserted (Put key val :: ops)) with (key :: inserted ops) in *.
    apply Forall_cons in Hins as [Hkey Hins].
    assert (key ∉ q) as Hfresh.
    { apply NoDup_app in Hnd as (_ & Hd & _). intros Hq.
      apply (Hd _ Hq). by left. }
    change (run_calls (Put key val :: ops) c)
      with (let '(c1, out1) := put key val c in
            let '(c2, out2) := run_calls ops c1 in (c2, out1 ++ out2)).
    change (run_call (Put key val) c) with (put key val c) in Hfree.
    destruct (decide (Z.of_nat (length q) < cap)) as [Hroom|Hfull].
    + destruct (tracks_put_room k cap q c key val Ht Hfresh Hkey)
        as (c1 & Hput & _ & T1); [lia|]. rewrite Hput in *.
      destruct (IH (q ++ [key]) c1 T1) as (c2 & -> & T2).
      * rewrite length_app. simpl. lia.
      * by rewrite <- app_assoc.
      * done.
      * done.
      * exists c2. rewrite length_app in *. simpl in *.
        rewrite <- !app_assoc in *. simpl in *.
        by replace (length q + S (length (inserted ops)) - Z.to_nat cap)%nat
          with (length q + 1 + length (inserted ops) - Z.to_nat cap)%nat by lia.
    + destruct q as [|v q]; [simpl in *; lia|].
      destruct (tracks_put_full k cap v q c key val Ht Hfresh Hkey)
        as (c1 & Hput & _ & T1); [lia|lia|]. rewrite Hput in *.
      apply NoDup_cons in Hnd as [Hv Hnd].
      destruct (IH (q ++ [key]) c1 T1) as (c2 & -> & T2).
      * rewrite length_app. simpl in *. lia.
      * by rewrite <- app_assoc.
      * done.
      * done.
      * exists c2. rewrite length_app in *. simpl in *.
        rewrite <- !app_assoc in *. simpl in *.
        replace (S (length q + S (length (inserted ops))) - Z.to_nat cap)%nat
          with (S (length q + 1 + length (inserted ops) - Z.to_nat cap))%nat
          by lia.
        done.
Qed.

(** Any run on a new cache in which every lookup misses and the inserted
    keys are distinct: the victims are the earliest insertions, in order of
    insertion, and the cache keeps the latest [cap] keys. *)
Lemma hit_free_workload_is_fifo k cap ops :
  0 < cap < 2 ^ 64 →
  NoDup (inserted ops) → Forall (insertable k) (inserted ops) →
  hit_free ops (new_cache k cap) →
  let n := (length (inserted ops) - Z.to_nat cap)%nat in
  ∃ c', run_calls ops (new_cache k cap) =
          (c', evicted k <$> take n (inserted ops)) ∧
        sequences (derived c') = drop n (inserted ops) ∧
        ∀ key, is_Some (cache c' !! key) ↔ key ∈ drop n (inserted ops).
Proof.
  intros Hcap Hnd Hins Hfree.
  destruct (hit_free_run k cap [] (new_cache k cap) ops Hcap (tracks_new k cap))
    as (c' & Hrun & (Hc & _ & Hseq & _)); [simpl; lia|done|done|done|].
  simpl in *. exists c'. split; [done|]. split; [done|].
  intros key. by rewrite <- (seq_store _ Hc), Hseq.
Qed.

(** C5: with capacity 5 and six distinct non-empty keys inserted in order,
    the first five insertions evict nothing and the sixth evicts exactly the
    first key, for each of the three policies; more generally, in any run on
    a new cache in which every lookup misses and the inserted keys are
    distinct (and non-empty for the two policies that test the victim), the
    keys evicted are the earliest inserted ones, in insertion order. *)
Theorem fifo_degeneration (k : kind) :
  (∀ K1 K2 K3 K4 K5 K6 v1 v2 v3 v4 v5 v6 : string,
     NoDup [K1; K2; K3; K4; K5; K6] →
     "" ∉ [K1; K2; K3; K4; K5; K6] →
     ∃ c5 c6,
       run_calls [Put K1 v1; Put K2 v2; Put K3 v3; Put K4 v4; Put K5 v5]
                 (new_cache k 5) = (c5, []) ∧
       cache c5 =
         <[K5 := v5]> (<[K4 := v4]> (<[K3 := v3]> (<[K2 := v2]>
           (<[K1 := v1]> ∅)))) ∧
       put K6 v6 c5 = (c6, [evicted k K1]) ∧
       cache c6 = <[K6 := v6]> (delete K1 (cache c5)) ∧
       cache c6 !! K1 = None ∧
       (∀ K, is_Some (cache c6 !! K) ↔ K ∈ [K2; K3; K4; K5; K6]) ∧
       sequences (derived c6) = [K2; K3; K4; K5; K6]) ∧
  (∀ (cap : Z) (ops : list call),
     0 < cap < 2 ^ 64 →
     NoDup (inserted ops) → Forall (insertable k) (inserted ops) →
     hit_free ops (new_cache k cap) →
     ∃ c',
       run_calls ops (new_cache k cap) =
         (c', evicted k <$>
                take (length (inserted ops) - Z.to_nat cap) (inserted ops)) ∧
       sequences (derived c') =
         drop (length (inserted ops) - Z.to_nat cap) (inserted ops) ∧
       ∀ key, is_Some (cache c' !! key) ↔
              key ∈ drop (length (inserted ops) - Z.to_nat cap) (inserted ops)).
Proof.
  split.
  - intros. by apply six_puts_evict_the_first.
  - intros. by apply hit_free_workload_is_fifo.
Qed.

Lemma fifo_degeneration_witness :
  ∃ c5 c6,
    run_calls [Put "a" "1"; Put "b" "2"; Put "c" "3"; Put "d" "4"; Put "e" "5"]
              (new_cache KS3FIFO 5) = (c5, []) ∧
    cache c5 =
      <[ "e" := "5" ]> (<[ "d" := "4" ]> (<[ "c" := "3" ]>
        (<[ "b" := "2" ]> (<[ "a" := "1" ]> ∅)))) ∧
    put "f" "6" c5 = (c6, [evicted KS3FIFO "a"]) ∧
    cache c6 = <[ "f" := "6" ]> (delete "a" (cache c5)) ∧
    cache c6 !! "a" = None ∧
    (∀ K, is_Some (cache c6 !! K) ↔ K ∈ ["b"; "c"; "d"; "e"; "f"]) ∧
    sequences (derived c6) = ["b"; "c"; "d"; "e"; "f"].
Proof.
  apply (proj1 (fifo_degeneration KS3FIFO) "a" "b" "c" "d" "e" "f").
  - apply (bool_decide_unpack _). vm_compute. exact I.
  - apply (bool_decide_unpack _). vm_compute. exact I.
Defined.

(** ** The capacity bound *)

(** C1: six insertions, the first with the empty string as its key, leave
    six entries in a [LIRSCache] and in an [S3FIFOCache] of capacity 5.  The
    sixth insertion finds the cache full and calls [evict], which takes the
    empty key off the front of its list and then, because the victim is the
    empty string, erases nothing and prints nothing. *)
Theorem capacity_exceeded_after_empty_key :
  let ops := [Put "" "r0"; Put "a" "r1"; Put "b" "r2"; Put "c" "r3";
              Put "d" "r4"; Put "e" "r5"] in
  (run_calls ops (new_LIRSCache 5)).2 = [] ∧
  capacity (run_calls ops (new_LIRSCache 5)).1 = 5 ∧
  size (cache (run_calls ops (new_LIRSCache 5)).1) = 6%nat ∧
  (run_calls ops (new_S3FIFOCache 5)).2 = [] ∧
  capacity (run_calls ops (new_S3FIFOCache 5)).1 = 5 ∧
  size (cache (run_calls ops (new_S3FIFOCache 5)).1) = 6%nat.
Proof. vm_compute. done. Qed.

(** The pipeline passes an empty query on: the empty string becomes a key,
    and six distinct queries, the first of them empty, leave six entries in
    the cache of a new system. *)
Lemma process_query_empty_text_is_stored :
  ∃ c,
    process_query "" new_DatabaseSystem =
      Returns "Result for OptimizedPlan()" (mkDB (Live c))
        [CacheMiss; LockAcquired "table"; LockAcquired "table";
         TransactionStarted; TransactionCommitted; LockReleased "table"] ∧
    cache c !! "" = Some "Result for OptimizedPlan()" ∧
    sequences (derived c) = [""].
Proof. eexists. split; [vm_compute; reflexivity|]. by vm_compute. Qed.

Lemma six_queries_overfill_the_cache :
  ∃ r c out,
    (process_query "" ;; process_query "a" ;; process_query "b" ;;
     process_query "c" ;; process_query "d" ;; process_query "e")
      new_DatabaseSystem = Returns r (mkDB (Live c)) out ∧
    capacity c = 5 ∧ size (cache c) = 6%nat ∧
    ∀ victim, LIRSEvicted victim ∉ out.
Proof.
  do 3 eexists. split; [vm_compute; reflexivity|].
  split; [done|]. split; [by vm_compute|].
  intros victim Hin.
  repeat (apply elem_of_cons in Hin as [Hin|Hin]; [discriminate|]).
  by apply elem_of_nil in Hin.
Qed.

(** ** Eviction with nothing tracked *)



(** C3: with an empty queue [TinyFLUCache::evict] returns at once, whatever
    the store holds (here one entry): it has no branch that falls back on a
    key of the store.  The fallback of the two other policies picks a key of
    the store but erases nothing when that key is the empty string. *)
Theorem evict_without_fallback :
  (∀ (cap hits misses : Z) (m : gmap string string),
     evict (mkCache cap m hits misses (TinyFLU (mkTinyFLU []))) =
       (mkCache cap m hits misses (TinyFLU (mkTinyFLU [])), [])) ∧
  evict (mkCache 5 {[ "q" := "r" ]} 0 0 (TinyFLU (mkTinyFLU []))) =
    (mkCache 5 {[ "q" := "r" ]} 0 0 (TinyFLU (mkTinyFLU [])), []) ∧
  evict (mkCache 5 {[ "" := "r" ]} 0 0 (LIRS (mkLIRS [] [] ∅))) =
    (mkCache 5 {[ "" := "r" ]} 0 0 (LIRS (mkLIRS [] [] ∅)), []) ∧
  evict (mkCache 5 {[ "" := "r" ]} 0 0 (S3FIFO (mkS3FIFO [] [] []))) =
    (mkCache 5 {[ "" := "r" ]} 0 0 (S3FIFO (mkS3FIFO [] [] [])), []).
Proof. split; [done|]. split; [done|]. split; by vm_compute. Qed.

(** No run of [get] and [put] brings a [TinyFLUCache] into a state where the
    queue is empty and the store is not. *)
Lemma TinyFLU_queue_tracks_store ops cap p :
  0 < cap < 2 ^ 64 →
  derived (run_calls ops (new_TinyFLUCache cap)).1 = TinyFLU p →
  (∀ k, k ∈ query_queue p ↔
        is_Some (cache (run_calls ops (new_TinyFLUCache cap)).1 !! k)) ∧
  (query_queue p = [] → cache (run_calls ops (new_TinyFLUCache cap)).1 = ∅).
Proof.
  intros Hcap Hp.
  destruct (run_calls_consistent ops (new_TinyFLUCache cap)) as [Hc _].
  - apply (consistent_new KTinyFLU).
  - apply Forall_forall. intros [q|q r] _; simpl; [done|by left].
  - done.
  - simpl. rewrite map_size_empty. lia.
  - pose proof (seq_store _ Hc) as Hst. rewrite Hp in Hst. simpl in Hst.
    split; [done|]. intros Hq. apply map_empty. intros k.
    apply eq_None_not_Some. rewrite <- Hst, Hq. apply not_elem_of_nil.
Qed.

(** ** A hit before the sixth insertion *)

(** C6: when the second of the five keys is the empty string, the sixth
    insertion after a hit on the first key evicts nothing in a [LIRSCache] or
    an [S3FIFOCache]: the empty key leaves the policy's list, stays in the
    store with its value, nothing is printed and the store holds six entries. *)
Theorem hit_then_insert_with_empty_second_key :
  let ops := [Put "a" "1"; Put "" "2"; Put "c" "3"; Put "d" "4"; Put "e" "5"] in
  ∃ l5 l5' l6 s5 s5' s6,
    run_calls ops (new_LIRSCache 5) = (l5, []) ∧
    get "a" l5 = ("1", l5') ∧
    put "f" "6" l5' = (l6, []) ∧
    cache l6 !! "" = Some "2" ∧ size (cache l6) = 6%nat ∧
    sequences (derived l6) = ["c"; "d"; "e"; "a"; "f"] ∧
    run_calls ops (new_S3FIFOCache 5) = (s5, []) ∧
    get "a" s5 = ("1", s5') ∧
    put "f" "6" s5' = (s6, []) ∧
    cache s6 !! "" = Some "2" ∧ size (cache s6) = 6%nat ∧
    sequences (derived s6) = ["c"; "d"; "e"; "f"; "a"].
Proof.
  simpl. do 6 eexists.
  split; [vm_compute; reflexivity|]. split; [vm_compute; reflexivity|].
  split; [vm_compute; reflexivity|]. do 3 (split; [by vm_compute|]).
  split; [vm_compute; reflexivity|]. split; [vm_compute; reflexivity|].
  split; [vm_compute; reflexivity|]. do 2 (split; [by vm_compute|]).
  by vm_compute.
Qed.

(** * Further properties of the code *)

Set Warnings "-clear-no-such-hyp".

Lemma run_calls_app ops1 ops2 c :
  run_calls (ops1 ++ ops2) c =
    let '(c1, out1) := run_calls ops1 c in
    let '(c2, out2) := run_calls ops2 c1 in
    (c2, out1 ++ out2).
Proof.
  revert c. induction ops1 as [|op ops1 IH]; intros c; simpl.
  - by destruct (run_calls ops2 c).
  - destruct (run_call op c) as [c1 out1]. rewrite IH.
    destruct (run_calls ops1 c1) as [c2 out2].
    destruct (run_calls ops2 c2) as [c3 out3]. by rewrite app_assoc.
Qed.

(** X1: with a positive capacity, after every call of a run on a new cache
    the store holds at most [capacity] entries, provided no empty key is
    inserted into a [LIRSCache] or an [S3FIFOCache]; for a [TinyFLUCache]
    every run qualifies. *)
Theorem capacity_bound_after_every_call (k : kind) (cap : Z) (ops : list call) (n : nat) :
  0 < cap < 2 ^ 64 →
  Forall (insertable_call k) ops →
  Z.of_nat (size (cache (run_calls (take n ops) (new_cache k cap)).1)) ≤ cap.
Proof.
  intros Hcap Hops.
  assert (kind_of (new_cache k cap) = k) as Hk by (by destruct k).
  assert (capacity (new_cache k cap) = cap) as Hc by (by destruct k).
  destruct (run_calls_consistent (take n ops) (new_cache k cap)) as [_ Hsize].
  - apply consistent_new.
  - rewrite Hk. by apply Forall_take.
  - by rewrite Hc.
  - rewrite Hc. destruct k; simpl; rewrite map_size_empty; lia.
  - by rewrite Hc in Hsize.
Qed.

Lemma capacity_bound_after_every_call_witness :
  Z.of_nat (size (cache (run_calls
     (take 7 [Put "a" "1"; Put "b" "2"; Get "a"; Put "c" "3"; Put "d" "4";
              Put "e" "5"; Put "f" "6"; Put "g" "7"])
     (new_cache KLIRS 5)).1)) ≤ 5.
Proof.
  apply (capacity_bound_after_every_call KLIRS 5).
  - lia.
  - repeat (apply Forall_cons; split; [simpl; first [done|by right]|]).
    constructor.
Defined.

(** X2: under the same conditions the policy's sequences hold exactly the
    keys of the store, each once; [stats] reports that number of entries and
    lists those keys. *)
Theorem sequences_mirror_the_store (k : kind) (cap : Z) (ops : list call) :
  0 < cap < 2 ^ 64 →
  Forall (insertable_call k) ops →
  let c := (run_calls ops (new_cache k cap)).1 in
  NoDup (sequences (derived c)) ∧
  (∀ key, key ∈ sequences (derived c) ↔ is_Some (cache c !! key)) ∧
  length (sequences (derived c)) = size (cache c) ∧
  (stats c).1.2 = size (cache c) ∧
  (stats c).2 ≡ₚ sequences (derived c).
Proof.
  intros Hcap Hops c.
  assert (kind_of (new_cache k cap) = k) as Hk by (by destruct k).
  assert (capacity (new_cache k cap) = cap) as Hc by (by destruct k).
  destruct (run_calls_consistent ops (new_cache k cap)) as [Hcons _].
  - apply consistent_new.
  - by rewrite Hk.
  - by rewrite Hc.
  - rewrite Hc. destruct k; simpl; rewrite map_size_empty; lia.
  - fold c in Hcons. split; [apply Hcons|]. split; [apply Hcons|].
    split; [by rewrite consistent_size|]. split; [done|].
    unfold stats. simpl. apply NoDup_Permutation.
    + apply NoDup_fst_map_to_list.
    + apply Hcons.
    + intros key. rewrite (seq_store _ Hcons), list_elem_of_fmap. split.
      * intros ([key' v] & -> & Hin). exists v. by apply elem_of_map_to_list.
      * intros [v Hv]. exists (key, v). split; [done|].
        by apply elem_of_map_to_list.
Qed.

Lemma sequences_mirror_the_store_witness :
  let c := (run_calls [Put "a" "1"; Put "b" "2"; Get "a"] (new_cache KS3FIFO 5)).1 in
  NoDup (sequences (derived c)) ∧
  (∀ key, key ∈ sequences (derived c) ↔ is_Some (cache c !! key)) ∧
  length (sequences (derived c)) = size (cache c) ∧
  (stats c).1.2 = size (cache c) ∧
  (stats c).2 ≡ₚ sequences (derived c).
Proof.
  apply (sequences_mirror_the_store KS3FIFO 5).
  - lia.
  - repeat (apply Forall_cons; split; [simpl; first [done|by right]|]).
    constructor.
Defined.

(** X3: inserting a key that the store does not hold binds it to the given
    value, which the next [get] returns; the insertion erases at most one
    other entry and changes no other value.  This holds in every state. *)
Theorem put_then_get (c : CacheStrategy) (key result : string) :
  cache c !! key = None →
  let c' := (put key result c).1 in
  cache c' !! key = Some result ∧
  (get key c').1 = result ∧
  (cache c' = <[key := result]> (cache c) ∨
   ∃ victim, cache c' = <[key := result]> (delete victim (cache c))).
Proof.
  intros Hout c'. unfold c'. rewrite (put_absent _ _ _ Hout). simpl.
  rewrite admit_cache. simpl.
  split; [apply lookup_insert_eq|]. split.
  - erewrite get_hit; [done|]. rewrite admit_cache. simpl. apply lookup_insert_eq.
  - destruct (to_size_t (capacity c) <=? Z.of_nat (size (cache c)))%Z; [|by left].
    destruct (evict_cache c) as [->|[victim ->]]; [by left|right; by exists victim].
Qed.

Lemma put_then_get_witness :
  let c' := (put "k" "v" (new_TinyFLUCache 5)).1 in
  cache c' !! "k" = Some "v" ∧
  (get "k" c').1 = "v" ∧
  (cache c' = <[ "k" := "v" ]> (cache (new_TinyFLUCache 5)) ∨
   ∃ victim, cache c' = <[ "k" := "v" ]> (delete victim (cache (new_TinyFLUCache 5)))).
Proof. apply (put_then_get (new_TinyFLUCache 5) "k" "v"). reflexivity. Defined.

Lemma evict_counters c :
  cache_hits (evict c).1 = cache_hits c ∧ cache_misses (evict c).1 = cache_misses c.
Proof.
  unfold evict. destruct (derived c) as [p|p|p].
  - by destruct (LIRS_evict (cache c) p) as [[??]?].
  - by destruct (TinyFLU_evict (cache c) p) as [[??]?].
  - by destruct (S3FIFO_evict (cache c) p) as [[??]?].
Qed.

Lemma admit_counters query c :
  cache_hits (admit_ query c) = cache_hits c ∧
  cache_misses (admit_ query c) = cache_misses c.
Proof. unfold admit_. by destruct (derived c). Qed.

Lemma put_counters query result c :
  cache_hits (put query result c).1 = cache_hits c ∧
  cache_misses (put query result c).1 = cache_misses c.
Proof.
  destruct (cache c !! query) as [v|] eqn:Hq.
  - rewrite (put_present _ _ _ _ Hq). simpl.
    by rewrite update_cache_hits, update_cache_misses.
  - rewrite (put_absent _ _ _ Hq). simpl.
    destruct (admit_counters query
      (set_cache (<[query:=result]>
         (cache (if (to_size_t (capacity c) <=? Z.of_nat (size (cache c)))%Z
                 then (evict c).1 else c)))
         (if (to_size_t (capacity c) <=? Z.of_nat (size (cache c)))%Z
          then (evict c).1 else c))) as [-> ->]. simpl.
    destruct (to_size_t (capacity c) <=? Z.of_nat (size (cache c)))%Z; [|done].
    apply evict_counters.
Qed.

Lemma get_counters query c :
  (is_Some (cache c !! query) ∧
   cache_hits (get query c).2 = incr (cache_hits c) ∧
   cache_misses (get query c).2 = cache_misses c) ∨
  (cache c !! query = None ∧
   cache_hits (get query c).2 = cache_hits c ∧
   cache_misses (get query c).2 = incr (cache_misses c)).
Proof.
  destruct (cache c !! query) as [v|] eqn:Hq.
  - left. rewrite (get_hit _ _ _ Hq). simpl.
    by rewrite update_cache_hits, update_cache_misses.
  - right. by rewrite (get_miss _ _ Hq).
Qed.

Lemma counters_account_for_lookups ops c :
  0 ≤ cache_hits c → 0 ≤ cache_misses c →
  cache_hits c + cache_misses c + Z.of_nat (lookups ops) ≤ INT_MAX →
  let c' := (run_calls ops c).1 in
  cache_hits c ≤ cache_hits c' ∧ cache_misses c ≤ cache_misses c' ∧
  cache_hits c' + cache_misses c' =
    cache_hits c + cache_misses c + Z.of_nat (lookups ops).
Proof.
  revert c. induction ops as [|op ops IH]; intros c Hh Hm Hn; simpl.
  { unfold lookups. simpl. lia. }
  destruct op as [query|query result].
  - change (lookups (Get query :: ops)) with (S (lookups ops)) in *.
    simpl. specialize (IH (get query c).2).
    destruct (run_calls ops (get query c).2) as [c2 out2]. simpl in *.
    assert (INT_MIN ≤ cache_hits c < INT_MAX ∧ INT_MIN ≤ cache_misses c < INT_MAX)
      as [Hrh Hrm] by (unfold INT_MIN, INT_MAX in *; lia).
    destruct (get_counters query c) as [(_ & Eh & Em)|(_ & Eh & Em)];
      rewrite Eh, Em in IH; rewrite incr_in_range in IH by done;
      destruct IH as (? & ? & ?); try lia.
  - change (lookups (Put query result :: ops)) with (lookups ops) in *.
    simpl. specialize (IH (put query result c).1).
    destruct (put_counters query result c) as [Eh Em].
    destruct (put query result c) as [c1 out1]. simpl in *.
    destruct (run_calls ops c1) as [c2 out2]. simpl in *.
    rewrite Eh, Em in IH. by apply IH.
Qed.

(** X4: in a run on a new cache every [get] is counted exactly once, as a
    hit or as a miss, and [put] counts nothing: the two counters add up to
    the number of lookups (as long as that number fits an [int]). *)
Theorem every_lookup_is_counted_once (k : kind) (cap : Z) (ops : list call) :
  Z.of_nat (lookups ops) ≤ INT_MAX →
  let c := (run_calls ops (new_cache k cap)).1 in
  0 ≤ cache_hits c ∧ 0 ≤ cache_misses c ∧
  cache_hits c + cache_misses c = Z.of_nat (lookups ops).
Proof.
  intros Hn c.
  assert (cache_hits (new_cache k cap) = 0 ∧ cache_misses (new_cache k cap) = 0)
    as [Hh Hm] by (by destruct k).
  destruct (counters_account_for_lookups ops (new_cache k cap))
    as (Hhits & Hmisses & Hsum); rewrite ?Hh, ?Hm in *; try lia.
  fold c in Hhits, Hmisses, Hsum. lia.
Qed.

Lemma every_lookup_is_counted_once_witness :
  let c := (run_calls [Get "a"; Put "a" "1"; Get "a"; Get "b"] (new_cache KLIRS 5)).1 in
  0 ≤ cache_hits c ∧ 0 ≤ cache_misses c ∧
  cache_hits c + cache_misses c =
    Z.of_nat (lookups [Get "a"; Put "a" "1"; Get "a"; Get "b"]).
Proof.
  apply (every_lookup_is_counted_once KLIRS 5).
  vm_compute. discriminate.
Defined.

Lemma run_call_low_list op c p :
  derived c = LIRS p → low_interference_list p = [] →
  ∃ p', derived (run_call op c).1 = LIRS p' ∧ low_interference_list p' = [].
Proof.
  intros Hp Hlow.
  assert (∀ query c0 p0, derived c0 = LIRS p0 → low_interference_list p0 = [] →
            ∃ p', derived (update query c0) = LIRS p' ∧
                  low_interference_list p' = []) as Hupd.
  { intros query c0 p0 Hp0 Hl0. unfold update. rewrite Hp0. simpl.
    eexists. split; [done|]. rewrite LIRS_update_eq.
    case_decide; simpl; [done|]. by rewrite Hl0. }
  assert (∀ query c0 p0, derived c0 = LIRS p0 → low_interference_list p0 = [] →
            ∃ p', derived (admit_ query c0) = LIRS p' ∧
                  low_interference_list p' = []) as Hadm.
  { intros query c0 p0 Hp0 Hl0. unfold admit_. rewrite Hp0. simpl.
    by eexists. }
  destruct op as [query|query result]; simpl.
  - destruct (cache c !! query) as [v|] eqn:Hq.
    + rewrite (get_hit _ _ _ Hq). simpl. by eapply Hupd.
    + rewrite (get_miss _ _ Hq). simpl. by exists p.
  - destruct (cache c !! query) as [v|] eqn:Hq.
    + rewrite (put_present _ _ _ _ Hq). simpl. by eapply Hupd.
    + rewrite (put_absent _ _ _ Hq). simpl.
      destruct (to_size_t (capacity c) <=? Z.of_nat (size (cache c)))%Z.
      * assert (∃ p1, derived (evict c).1 = LIRS p1 ∧
                      low_interference_list p1 = []) as (p1 & Hp1 & Hl1).
        { unfold evict. rewrite Hp. unfold LIRS_evict. rewrite Hlow.
          destruct (high_interference_list p) as [|v h]; simpl.
          - destruct (begin_key (cache c)) as [key|]; simpl;
              try case_decide; simpl; by eexists.
          - case_decide; simpl; by eexists. }
        by eapply Hadm.
      * by eapply Hadm.
Qed.

(** X5: no run of [get] and [put] on a new [LIRSCache] ever puts a key
    into [low_interference_list]: nothing appends to that list. *)
Theorem LIRS_low_list_stays_empty (cap : Z) (ops : list call) :
  ∃ p, derived (run_calls ops (new_LIRSCache cap)).1 = LIRS p ∧
       low_interference_list p = [].
Proof.
  assert (∀ c p, derived c = LIRS p → low_interference_list p = [] →
            ∃ p', derived (run_calls ops c).1 = LIRS p' ∧
                  low_interference_list p' = []) as Hgen.
  { induction ops as [|op ops IH]; intros c p Hp Hlow; [by exists p|].
    simpl. destruct (run_call_low_list op c p Hp Hlow) as (p1 & Hp1 & Hl1).
    destruct (run_call op c) as [c1 out1]. simpl in *.
    destruct (IH c1 p1 Hp1 Hl1) as (p2 & Hp2 & Hl2).
    destruct (run_calls ops c1) as [c2 out2]. by exists p2. }
  by eapply Hgen.
Qed.

Lemma run_call_pinned op c p :
  derived c = S3FIFO p → short_term p ≠ [] → fresh_run [op] c →
  ∃ p', derived (run_call op c).1 = S3FIFO p' ∧
        medium_term p' = medium_term p ∧ long_term p' = long_term p ∧
        short_term p' ≠ [].
Proof.
  intros Hp Hshort [Hfresh _]. destruct op as [query|query result]; simpl.
  - rewrite (get_miss _ _ Hfresh). simpl. by exists p.
  - rewrite (put_absent _ _ _ Hfresh). simpl.
    destruct (to_size_t (capacity c) <=? Z.of_nat (size (cache c)))%Z.
    + unfold evict. rewrite Hp. unfold S3FIFO_evict.
      destruct (short_term p) as [|v s] eqn:Hs; [done|].
      case_decide; simpl; unfold admit_; simpl; eexists;
        (split; [done|]); simpl; (do 2 (split; [done|])); by destruct s.
    + unfold admit_, set_cache. simpl. rewrite Hp. simpl. eexists.
      split; [done|]. simpl. do 2 (split; [done|]).
      by destruct (short_term p).
Qed.

(** X6: in an [S3FIFOCache] whose [short_term] queue is not empty, a run
    of lookups that miss and of insertions of new keys never touches
    [medium_term] and [long_term]: every victim comes from [short_term],
    which the insertion refills, so promoted keys are not evicted. *)
Theorem S3FIFO_promoted_keys_are_pinned (c : CacheStrategy) (p : S3FIFOCache)
    (ops : list call) :
  derived c = S3FIFO p → short_term p ≠ [] → fresh_run ops c →
  ∃ p', derived (run_calls ops c).1 = S3FIFO p' ∧
        medium_term p' = medium_term p ∧ long_term p' = long_term p ∧
        short_term p' ≠ [].
Proof.
  revert c p. induction ops as [|op ops IH]; intros c p Hp Hshort Hfresh.
  { by exists p. }
  destruct Hfresh as [Hop Hfresh].
  destruct (run_call_pinned op c p Hp Hshort) as (p1 & Hp1 & Hm1 & Hl1 & Hs1).
  { by split. }
  simpl. destruct (run_call op c) as [c1 out1]. simpl in *.
  destruct (IH c1 p1 Hp1 Hs1 Hfresh) as (p2 & Hp2 & Hm2 & Hl2 & Hs2).
  destruct (run_calls ops c1) as [c2 out2]. simpl in *.
  exists p2. by rewrite Hm2, Hl2, Hm1, Hl1.
Qed.

Lemma S3FIFO_promoted_keys_are_pinned_witness :
  let c := (run_calls [Put "a" "1"; Put "b" "2"; Get "a"] (new_S3FIFOCache 2)).1 in
  ∃ p', derived (run_calls [Put "c" "3"; Get "x"; Put "d" "4"; Put "e" "5"] c).1
          = S3FIFO p' ∧
        medium_term p' = ["a"] ∧ long_term p' = [] ∧ short_term p' ≠ [].
Proof.
  apply (S3FIFO_promoted_keys_are_pinned
           (run_calls [Put "a" "1"; Put "b" "2"; Get "a"] (new_S3FIFOCache 2)).1
           (mkS3FIFO ["b"] ["a"] [])).
  - vm_compute. reflexivity.
  - discriminate.
  - vm_compute. repeat split.
Defined.

Lemma get_cache query c : cache (get query c).2 = cache c.
Proof.
  destruct (cache c !! query) as [v|] eqn:Hq.
  - rewrite (get_hit _ _ _ Hq). simpl. by rewrite update_cache.
  - by rewrite (get_miss _ _ Hq).
Qed.

Lemma no_eviction_while_keys_fit ops c :
  Z.of_nat (size (dom (cache c) ∪ list_to_set (inserted ops) : gset string))
    ≤ to_size_t (capacity c) →
  (run_calls ops c).2 = [] ∧
  dom (cache (run_calls ops c).1) = dom (cache c) ∪ list_to_set (inserted ops) ∧
  cache c ⊆ cache (run_calls ops c).1.
Proof.
  revert c. induction ops as [|[query|query result] ops IH]; intros c Hfit.
  - simpl. split; [done|]. split; [set_solver|done].
  - change (inserted (Get query :: ops)) with (inserted ops) in *.
    simpl. specialize (IH (get query c).2).
    pose proof (run_call_capacity (Get query) c) as Hcap. simpl in Hcap.
    rewrite get_cache, Hcap in IH. specialize (IH Hfit).
    by destruct (run_calls ops (get query c).2) as [c2 out2].
  - change (inserted (Put query result :: ops))
      with (query :: inserted ops) in *.
    change (list_to_set (query :: inserted ops) : gset string)
      with ({[query]} ∪ list_to_set (inserted ops) : gset string) in *.
    simpl. specialize (IH (put query result c).1).
    pose proof (run_call_capacity (Put query result) c) as Hcap. simpl in Hcap.
    rewrite Hcap in IH.
    destruct (cache c !! query) as [v|] eqn:Hq.
    + rewrite (put_present _ _ _ _ Hq) in *. simpl in *.
      rewrite update_cache in IH.
      assert (query ∈ dom (cache c)) as Hin by (apply elem_of_dom; eauto).
      replace (dom (cache c) ∪ ({[query]} ∪ list_to_set (inserted ops)))
        with (dom (cache c) ∪ list_to_set (inserted ops) : gset string) in *
        by set_solver.
      specialize (IH Hfit).
      by destruct (run_calls ops (update query c)) as [c2 out2].
    + assert (query ∉ dom (cache c)) as Hnin by (by apply not_elem_of_dom).
      assert (Z.of_nat (size (cache c)) < to_size_t (capacity c)) as Hroom.
      { rewrite <- size_dom.
        assert (size ({[query]} ∪ dom (cache c) : gset string)
                ≤ size (dom (cache c) ∪ ({[query]} ∪ list_to_set (inserted ops))
                        : gset string))%nat as Hle
          by (apply subseteq_size; set_solver).
        rewrite size_union, size_singleton in Hle by set_solver. lia. }
      rewrite (put_absent _ _ _ Hq) in *. simpl in *.
      replace (to_size_t (capacity c) <=? Z.of_nat (size (cache c)))%Z
        with false in * by (symmetry; apply Z.leb_gt; lia).
      rewrite admit_cache in IH. simpl in IH.
      rewrite dom_insert_L in IH.
      replace ({[query]} ∪ dom (cache c) ∪ list_to_set (inserted ops))
        with (dom (cache c) ∪ ({[query]} ∪ list_to_set (inserted ops))
              : gset string) in IH by set_solver.
      destruct (IH Hfit) as (Hout & Hdom & Hsub).
      destruct (run_calls ops _) as [c2 out2]. simpl in *.
      split; [done|]. split; [done|].
      etrans; [|exact Hsub]. by apply insert_subseteq.
Qed.

(** X14: a run on a new cache that inserts no more distinct keys than the
    capacity prints no eviction and ends with exactly the inserted keys in
    the store, whatever the keys are. *)
Theorem nothing_is_evicted_while_the_keys_fit (k : kind) (cap : Z) (ops : list call) :
  0 ≤ cap < 2 ^ 64 →
  Z.of_nat (size (list_to_set (inserted ops) : gset string)) ≤ cap →
  (run_calls ops (new_cache k cap)).2 = [] ∧
  dom (cache (run_calls ops (new_cache k cap)).1) = list_to_set (inserted ops).
Proof.
  intros Hcap Hfit.
  assert (capacity (new_cache k cap) = cap ∧ cache (new_cache k cap) = ∅)
    as [Hc Hm] by (by destruct k).
  destruct (no_eviction_while_keys_fit ops (new_cache k cap)) as (Hout & Hdom & _).
  - rewrite Hc, Hm, dom_empty_L, to_size_t_small by done.
    by rewrite (left_id_L ∅ (∪)).
  - split; [done|]. by rewrite Hdom, Hm, dom_empty_L, (left_id_L ∅ (∪)).
Qed.

Lemma nothing_is_evicted_while_the_keys_fit_witness :
  (run_calls [Put "a" "1"; Put "" "2"; Get "a"; Put "a" "3"; Put "b" "4"]
             (new_cache KLIRS 3)).2 = [] ∧
  dom (cache (run_calls [Put "a" "1"; Put "" "2"; Get "a"; Put "a" "3"; Put "b" "4"]
                        (new_cache KLIRS 3)).1)
    = list_to_set (inserted [Put "a" "1"; Put "" "2"; Get "a"; Put "a" "3"; Put "b" "4"]).
Proof.
  apply (nothing_is_evicted_while_the_keys_fit KLIRS 3).
  - lia.
  - vm_compute. discriminate.
Defined.

Lemma size_list_to_set_le (l : list string) :
  (size (list_to_set l : gset string) ≤ length l)%nat.
Proof.
  induction l as [|x l IH].
  - by rewrite list_to_set_nil, size_empty.
  - rewrite list_to_set_cons. simpl. rewrite size_union_alt.
    rewrite size_singleton.
    assert (size (list_to_set l ∖ {[x]} : gset string)
            ≤ size (list_to_set l : gset string))%nat
      by (apply subseteq_size; set_solver).
    lia.
Qed.

Lemma inserted_length ops : (length (inserted ops) ≤ length ops)%nat.
Proof.
  induction ops as [|[q|q r] ops IH]; simpl; [done| |].
  - change (inserted (Get q :: ops)) with (inserted ops). lia.
  - change (inserted (Put q r :: ops)) with (q :: inserted ops). simpl. lia.
Qed.

(** X15: a negative capacity disables eviction: cast to [size_t] it is
    larger than any store, so a run on a new cache evicts nothing and keeps
    every inserted key. *)
Theorem negative_capacity_never_evicts (k : kind) (cap : Z) (ops : list call) :
  INT_MIN ≤ cap < 0 →
  Z.of_nat (length ops) < 2 ^ 63 →
  (run_calls ops (new_cache k cap)).2 = [] ∧
  dom (cache (run_calls ops (new_cache k cap)).1) = list_to_set (inserted ops).
Proof.
  intros Hcap Hlen.
  assert (capacity (new_cache k cap) = cap ∧ cache (new_cache k cap) = ∅)
    as [Hc Hm] by (by destruct k).
  destruct (no_eviction_while_keys_fit ops (new_cache k cap)) as (Hout & Hdom & _).
  - rewrite Hc, Hm, dom_empty_L, (left_id_L ∅ (∪)).
    pose proof (size_list_to_set_le (inserted ops)).
    pose proof (inserted_length ops).
    unfold to_size_t, INT_MIN in *.
    assert (cap mod 2 ^ 64 = cap + 2 ^ 64) as ->.
    { symmetry. apply Z.mod_unique_pos with (q := -1); lia. }
    lia.
  - split; [done|]. by rewrite Hdom, Hm, dom_empty_L, (left_id_L ∅ (∪)).
Qed.

Lemma negative_capacity_never_evicts_witness :
  (run_calls [Put "a" "1"; Put "b" "2"; Put "c" "3"] (new_cache KTinyFLU (-1))).2 = [] ∧
  dom (cache (run_calls [Put "a" "1"; Put "b" "2"; Put "c" "3"]
                        (new_cache KTinyFLU (-1))).1)
    = list_to_set (inserted [Put "a" "1"; Put "b" "2"; Put "c" "3"]).
Proof.
  apply (negative_capacity_never_evicts KTinyFLU (-1)).
  - unfold INT_MIN. lia.
  - simpl. lia.
Defined.

Lemma strip_leading_spaces n s :
  strip_leading (Ascii.eqb " ") (spaces n +:+ s) = strip_leading (Ascii.eqb " ") s.
Proof. induction n as [|n IH]; [done|]. simpl. by rewrite IH. Qed.

Lemma strip_leading_only_spaces n : strip_leading (Ascii.eqb " ") (spaces n) = "".
Proof. induction n as [|n IH]; [done|]. simpl. by rewrite IH. Qed.

Lemma strip_trailing_only_spaces n : strip_trailing (Ascii.eqb " ") (spaces n) = "".
Proof. induction n as [|n IH]; [done|]. simpl. by rewrite IH. Qed.

Lemma strip_trailing_spaces s m :
  strip_trailing (Ascii.eqb " ") (s +:+ spaces m) = strip_trailing (Ascii.eqb " ") s.
Proof.
  induction s as [|a s IH]; simpl.
  - apply strip_trailing_only_spaces.
  - by rewrite IH.
Qed.

Lemma strip_spaces_around n s m :
  strip (Ascii.eqb " ") (spaces n +:+ s +:+ spaces m) = strip (Ascii.eqb " ") s.
Proof.
  unfold strip. rewrite strip_leading_spaces.
  induction s as [|a s IH].
  - change ("" +:+ spaces m) with (spaces m).
    by rewrite strip_leading_only_spaces.
  - change (String a s +:+ spaces m) with (String a (s +:+ spaces m)).
    cbn [strip_leading]. destruct ((Ascii.eqb " ") a); [done|].
    apply (strip_trailing_spaces (String a s)).
Qed.

Lemma strip_leading_head s :
  strip_leading (Ascii.eqb " ") s = "" ∨
  ∃ a r, strip_leading (Ascii.eqb " ") s = String a r ∧ (Ascii.eqb " ") a = false.
Proof.
  induction s as [|a s IH]; [by left|]. cbn [strip_leading].
  destruct ((Ascii.eqb " ") a) eqn:Ha; [done|]. right. by exists a, s.
Qed.

Lemma strip_trailing_cons a s :
  (Ascii.eqb " ") a = false →
  ∃ r, strip_trailing (Ascii.eqb " ") (String a s) = String a r.
Proof.
  intros Ha. cbn [strip_trailing]. rewrite Ha.
  destruct (strip_trailing (Ascii.eqb " ") s); by eexists.
Qed.

Lemma strip_head s :
  strip (Ascii.eqb " ") s = "" ∨ ∃ a r, strip (Ascii.eqb " ") s = String a r ∧ (Ascii.eqb " ") a = false.
Proof.
  unfold strip. destruct (strip_leading_head s) as [->|(a & r & -> & Ha)].
  - by left.
  - right. destruct (strip_trailing_cons a r Ha) as [r' ->]. by exists a, r'.
Qed.

Lemma strip_trailing_idemp s :
  strip_trailing (Ascii.eqb " ") (strip_trailing (Ascii.eqb " ") s) = strip_trailing (Ascii.eqb " ") s.
Proof.
  induction s as [|a s IH]; [done|]. cbn [strip_trailing].
  destruct (strip_trailing (Ascii.eqb " ") s) as [|x u] eqn:Hu.
  - destruct ((Ascii.eqb " ") a) eqn:Ha; [done|]. cbn [strip_trailing]. by rewrite Ha.
  - cbn [strip_trailing]. cbn [strip_trailing] in IH. by rewrite IH.
Qed.

Lemma strip_idemp s : strip (Ascii.eqb " ") (strip (Ascii.eqb " ") s) = strip (Ascii.eqb " ") s.
Proof.
  destruct (strip_head s) as [E|(a & r & E & Ha)].
  - by rewrite E.
  - unfold strip at 1. rewrite E. cbn [strip_leading]. rewrite Ha, <- E.
    unfold strip. apply strip_trailing_idemp.
Qed.

Lemma strip_trailing_last s init :
  strip_trailing (Ascii.eqb " ") s ≠ init +:+ " ".
Proof.
  revert init. induction s as [|a s IH]; intros init.
  - by destruct init.
  - cbn [strip_trailing]. destruct (strip_trailing (Ascii.eqb " ") s) as [|x u] eqn:Hu.
    + destruct ((Ascii.eqb " ") a) eqn:Ha; [by destruct init|].
      destruct init as [|b init]; simpl.
      * intros [= ->]. done.
      * intros [= _ Hi]. by destruct init.
    + destruct init as [|b init]; simpl; [done|].
      intros [= _ Hi]. by apply (IH init).
Qed.

(** X7: [trim] ignores any number of spaces before and after its argument,
    is idempotent, and its result neither starts nor ends with a space. *)
Theorem trim_removes_exactly_the_surrounding_spaces (s : string) :
  (∀ n m, trim (spaces n +:+ s +:+ spaces m) = trim s) ∧
  trim (trim s) = trim s ∧
  (∀ rest, trim s ≠ String " " rest) ∧
  (∀ init, trim s ≠ init +:+ " ").
Proof.
  rewrite !trim_strips_spaces. split; [|split; [|split]].
  - intros n m. rewrite trim_strips_spaces. apply strip_spaces_around.
  - apply strip_idemp.
  - intros rest E. destruct (strip_head s) as [E'|(a & r & E' & Ha)];
      rewrite E' in E; [done|]. by injection E as -> _.
  - intros init. apply strip_trailing_last.
Qed.

Lemma tolower_idemp a : tolower (tolower a) = tolower a.
Proof. by destruct a as [[] [] [] [] [] [] [] []]. Qed.

(** X8: [parse] is idempotent, keeps the length, lower-cases character by
    character and distributes over concatenation. *)
Theorem parse_gives_a_normal_form (query : string) :
  QueryParser.parse (QueryParser.parse query) = QueryParser.parse query ∧
  String.length (QueryParser.parse query) = String.length query ∧
  (∀ i, String.get i (QueryParser.parse query) = tolower <$> String.get i query) ∧
  (∀ q2, QueryParser.parse (query +:+ q2) =
         QueryParser.parse query +:+ QueryParser.parse q2).
Proof.
  unfold QueryParser.parse. split; [|split; [|split]].
  - induction query as [|a s IH]; simpl; [done|]. by rewrite tolower_idemp, IH.
  - induction query as [|a s IH]; simpl; [done|]. by rewrite IH.
  - induction query as [|a s IH]; intros i; simpl; [done|].
    destruct i; [done|]. apply IH.
  - intros q2. induction query as [|a s IH]; simpl; [done|]. by rewrite IH.
Qed.

Lemma computed_result_nonempty query : computed_result query ≠ "".
Proof. done. Qed.

Lemma append_inj_r (s t1 t2 : string) : s +:+ t1 = s +:+ t2 → t1 = t2.
Proof. induction s as [|a s IH]; simpl; [done|]. intros [= ?]. auto. Qed.

Lemma append_inj_l (s1 s2 : string) (a : ascii) :
  s1 +:+ String a "" = s2 +:+ String a "" → s1 = s2.
Proof.
  revert s2. induction s1 as [|b s1 IH]; intros [|b2 s2]; simpl; try done.
  - intros [= _ E]. by destruct s2.
  - intros [= _ E]. by destruct s1.
  - intros [= -> E]. f_equal. by apply IH.
Qed.

(** X9: the result computed for two queries is the same exactly when they
    parse to the same text: [optimize] and [execute] lose nothing. *)
Theorem results_agree_exactly_on_equal_parses (q1 q2 : string) :
  computed_result q1 = computed_result q2 ↔
  QueryParser.parse q1 = QueryParser.parse q2.
Proof.
  split; [|unfold computed_result; by intros ->].
  unfold computed_result, ExecutionEngine.execute, QueryOptimizer.optimize.
  intros E. apply append_inj_r, append_inj_r in E. by apply append_inj_l in E.
Qed.

Lemma put_lookup_inv query result c key v :
  cache (put query result c).1 !! key = Some v →
  (key = query ∧ v = result) ∨ cache c !! key = Some v.
Proof.
  destruct (cache c !! query) as [w|] eqn:Hq.
  - rewrite (put_present _ _ _ _ Hq). simpl. rewrite update_cache. by right.
  - rewrite (put_absent _ _ _ Hq). simpl. rewrite admit_cache. simpl.
    rewrite lookup_insert. case_decide as Hk.
    + intros [= <-]. by left.
    + intros Hv. right.
      destruct (to_size_t (capacity c) <=? Z.of_nat (size (cache c)))%Z; [|done].
      destruct (evict_lookup c key) as [E|E]; rewrite E in Hv; done.
Qed.

Lemma process_query_hit c query v :
  cache c !! query = Some v → v ≠ "" →
  process_query query (mkDB (Live c)) =
    Returns v
      (mkDB (Live (update query
         (mkCache (capacity c) (cache c) (incr (cache_hits c))
                  (cache_misses c) (derived c)))))
      [CacheHit].
Proof.
  intros Hin Hv. unfold process_query, mbind, M_bind, call_get. simpl.
  rewrite (get_hit _ _ _ Hin). simpl. by rewrite decide_True.
Qed.

Lemma process_query_miss c query :
  cache c !! query = None →
  let c1 := mkCache (capacity c) (cache c) (cache_hits c)
                    (incr (cache_misses c)) (derived c) in
  process_query query (mkDB (Live c)) =
    Returns (computed_result query)
      (mkDB (Live (put query (computed_result query) c1).1))
      (miss_lines ++ (put query (computed_result query) c1).2).
Proof.
  intros Hout c1. unfold process_query, mbind, M_bind, call_get. simpl.
  rewrite (get_miss _ _ Hout). simpl. unfold call_put. simpl.
  fold c1. fold (computed_result query).
  destruct (put query (computed_result query) c1) as [c' out]. simpl.
  by rewrite app_nil_r.
Qed.

(** X10: when every stored value is the result computed for its key (as in
    a new cache), [process_query] returns the result computed for the query,
    on a hit as on a miss, leaves the query cached with that result, and
    keeps every stored value the computed one. *)
Theorem process_query_returns_the_computed_result (c : CacheStrategy) (query : string) :
  canonical c →
  ∃ c' out,
    process_query query (mkDB (Live c)) =
      Returns (computed_result query) (mkDB (Live c')) out ∧
    canonical c' ∧
    cache c' !! query = Some (computed_result query) ∧
    (out = [CacheHit] ∨ ∃ evictions, out = miss_lines ++ evictions).
Proof.
  intros Hcan. destruct (cache c !! query) as [v|] eqn:Hq.
  - pose proof (Hcan _ _ Hq) as ->.
    rewrite (process_query_hit _ _ _ Hq (computed_result_nonempty query)).
    do 2 eexists. split; [done|]. rewrite update_cache. simpl.
    split; [|split; [done|by left]].
    intros key v. rewrite update_cache. simpl. apply Hcan.
  - rewrite (process_query_miss _ _ Hq). simpl.
    do 2 eexists. split; [done|]. split; [|split; [|right; by eexists]].
    + intros key v Hv. apply put_lookup_inv in Hv as [[-> ->]|Hv]; [done|].
      by apply Hcan.
    + rewrite put_absent by done. simpl. rewrite admit_cache. simpl.
      apply lookup_insert_eq.
Qed.

Lemma process_query_returns_the_computed_result_witness :
  ∃ c' out,
    process_query "SELECT 1" (mkDB (Live (new_S3FIFOCache 5))) =
      Returns (computed_result "SELECT 1") (mkDB (Live c')) out ∧
    canonical c' ∧
    cache c' !! "SELECT 1" = Some (computed_result "SELECT 1") ∧
    (out = [CacheHit] ∨ ∃ evictions, out = miss_lines ++ evictions).
Proof.
  apply (process_query_returns_the_computed_result (new_S3FIFOCache 5) "SELECT 1").
  intros key v Hv. simpl in Hv. by rewrite lookup_empty in Hv.
Defined.

(** X11: unless the store binds the query to the empty string, submitting a
    query twice in a row makes the second submission a hit: it prints only
    the hit line, returns the result of the first and leaves the store as it
    is. *)
Theorem process_query_again_is_a_hit (c : CacheStrategy) (query : string) :
  cache c !! query ≠ Some "" →
  ∃ r c1 out1 c2,
    process_query query (mkDB (Live c)) = Returns r (mkDB (Live c1)) out1 ∧
    process_query query (mkDB (Live c1)) = Returns r (mkDB (Live c2)) [CacheHit] ∧
    cache c2 = cache c1 ∧
    cache c1 !! query = Some r.
Proof.
  intros Hne. destruct (cache c !! query) as [v|] eqn:Hq.
  - assert (v ≠ "") as Hv by congruence.
    rewrite (process_query_hit _ _ _ Hq Hv).
    do 4 eexists. split; [done|].
    rewrite process_query_hit with (v := v);
      [|by rewrite update_cache|done].
    split; [done|]. by rewrite !update_cache.
  - rewrite (process_query_miss _ _ Hq). simpl.
    set (c1 := (put query (computed_result query) _).1).
    assert (cache c1 !! query = Some (computed_result query)) as H1.
    { unfold c1. rewrite put_absent by done. simpl. rewrite admit_cache. simpl.
      apply lookup_insert_eq. }
    do 4 eexists. split; [done|].
    rewrite (process_query_hit _ _ _ H1 (computed_result_nonempty query)).
    split; [done|]. by rewrite update_cache.
Qed.

Lemma process_query_again_is_a_hit_witness :
  ∃ r c1 out1 c2,
    process_query "q" (mkDB (Live (new_LIRSCache 5)))
      = Returns r (mkDB (Live c1)) out1 ∧
    process_query "q" (mkDB (Live c1)) = Returns r (mkDB (Live c2)) [CacheHit] ∧
    cache c2 = cache c1 ∧
    cache c1 !! "q" = Some r.
Proof.
  apply (process_query_again_is_a_hit (new_LIRSCache 5) "q").
  simpl. rewrite lookup_empty. discriminate.
Defined.

(** X12: after a strategy selection with a recognised name, whatever the
    old cache held, the next query misses and is executed; afterwards the
    cache holds that query alone, with no hit and one miss counted. *)
Theorem swap_then_query_is_a_cold_miss (strategy query : string) (c : CacheStrategy) :
  transform_tolower (trim strategy) ∈ ["lirs"; "tinyflu"; "s3fifo"; "s3-fifo"] →
  ∃ c' name,
    (set_cache_strategy strategy ;; process_query query) (mkDB (Live c)) =
      Returns (computed_result query) (mkDB (Live c'))
        ([DebugRawInput strategy;
          DebugProcessed (transform_tolower (trim strategy));
          StrategySetTo name] ++ miss_lines) ∧
    cache c' = {[ query := computed_result query ]} ∧
    cache_hits c' = 0 ∧ cache_misses c' = 1 ∧ capacity c' = 5 ∧
    sequences (derived c') = [query].
Proof.
  intros Hin. unfold mbind at 1. unfold M_bind.
  rewrite set_cache_strategy_unfold.
  assert (∀ k, ∃ c',
            process_query query (mkDB (Live (new_cache k 5))) =
              Returns (computed_result query) (mkDB (Live c')) miss_lines ∧
            cache c' = {[ query := computed_result query ]} ∧
            cache_hits c' = 0 ∧ cache_misses c' = 1 ∧ capacity c' = 5 ∧
            sequences (derived c') = [query]) as Hcold.
  { intros k. destruct k;
      (rewrite process_query_miss by apply lookup_empty;
       rewrite put_absent by apply lookup_empty; simpl;
       rewrite map_size_empty; simpl;
       eexists; split; [done|]; simpl; by rewrite insert_empty). }
  repeat case_decide.
  - destruct (Hcold KLIRS) as (c' & E & ?). simpl in E. rewrite E.
    by exists c', "LIRS".
  - destruct (Hcold KTinyFLU) as (c' & E & ?). simpl in E. rewrite E.
    by exists c', "TinyFLU".
  - destruct (Hcold KS3FIFO) as (c' & E & ?). simpl in E. rewrite E.
    by exists c', "S3-FIFO".
  - exfalso.
    apply elem_of_cons in Hin as [?|Hin]; [done|].
    apply elem_of_cons in Hin as [?|Hin]; [done|].
    apply elem_of_cons in Hin as [?|Hin]; [tauto|].
    apply elem_of_cons in Hin as [?|Hin]; [tauto|].
    by apply elem_of_nil in Hin.
Qed.

Lemma swap_then_query_is_a_cold_miss_witness :
  ∃ c' name,
    (set_cache_strategy " S3-FIFO" ;; process_query "q")
      (mkDB (Live (put "old" "x" (new_LIRSCache 5)).1)) =
      Returns (computed_result "q") (mkDB (Live c'))
        ([DebugRawInput " S3-FIFO";
          DebugProcessed (transform_tolower (trim " S3-FIFO"));
          StrategySetTo name] ++ miss_lines) ∧
    cache c' = {[ "q" := computed_result "q" ]} ∧
    cache_hits c' = 0 ∧ cache_misses c' = 1 ∧ capacity c' = 5 ∧
    sequences (derived c') = ["q"].
Proof.
  apply (swap_then_query_is_a_cold_miss " S3-FIFO" "q").
  apply (bool_decide_unpack _). vm_compute. exact I.
Defined.

Lemma process_query_fits c query :
  canonical c →
  Z.of_nat (size (dom (cache c) ∪ {[query]} : gset string))
    ≤ to_size_t (capacity c) →
  ∃ c',
    process_query query (mkDB (Live c)) =
      Returns (computed_result query) (mkDB (Live c'))
        (if decide (query ∈ dom (cache c)) then [CacheHit] else miss_lines) ∧
    cache c' =
      (if decide (query ∈ dom (cache c)) then cache c
       else <[query := computed_result query]> (cache c)) ∧
    capacity c' = capacity c.
Proof.
  intros Hcan Hfit. destruct (cache c !! query) as [v|] eqn:Hq.
  - pose proof (Hcan _ _ Hq) as ->.
    rewrite (process_query_hit _ _ _ Hq (computed_result_nonempty query)).
    assert (query ∈ dom (cache c)) as Hin. { apply elem_of_dom. by eexists. }
    rewrite !decide_True by done.
    eexists. split; [done|]. by rewrite update_cache, update_capacity.
  - assert (query ∉ dom (cache c)) as Hnin by (by apply not_elem_of_dom).
    rewrite !decide_False by done.
    rewrite (process_query_miss _ _ Hq). simpl.
    rewrite put_absent by done. simpl.
    assert (Z.of_nat (size (cache c)) < to_size_t (capacity c)) as Hroom.
    { rewrite <- size_dom. rewrite size_union, size_singleton in Hfit by set_solver.
      lia. }
    replace (to_size_t (capacity c) <=? Z.of_nat (size (cache c)))%Z
      with false by (symmetry; apply Z.leb_gt; lia).
    eexists. split; [done|].
    by rewrite admit_cache, admit_capacity.
Qed.

Lemma process_all_without_eviction c queries :
  canonical c →
  Z.of_nat (size (dom (cache c) ∪ list_to_set queries : gset string))
    ≤ to_size_t (capacity c) →
  ∃ c' out,
    process_all queries (mkDB (Live c)) = Returns () (mkDB (Live c')) out ∧
    canonical c' ∧
    dom (cache c') = dom (cache c) ∪ list_to_set queries ∧
    Forall (λ e, is_eviction e = false) out ∧
    executions out = size (list_to_set queries ∖ dom (cache c) : gset string) ∧
    (hits_reported out + executions out)%nat = length queries.
Proof.
  revert c. induction queries as [|query queries IH]; intros c Hcan Hfit.
  { exists c, []. simpl. split; [done|]. split; [done|].
    split; [set_solver|]. split; [done|].
    replace (∅ ∖ dom (cache c) : gset string) with (∅ : gset string) by set_solver.
    by rewrite size_empty. }
  rewrite list_to_set_cons in Hfit.
  destruct (process_query_fits c query Hcan) as (c1 & E1 & Hc1 & Hcap1).
  { etrans; [|exact Hfit]. apply inj_le, subseteq_size. set_solver. }
  assert (canonical c1) as Hcan1.
  { intros key v. rewrite Hc1. case_decide; [apply Hcan|].
    rewrite lookup_insert. case_decide; [by intros [= <-]; subst|apply Hcan]. }
  destruct (IH c1 Hcan1) as (c2 & out2 & E2 & Hcan2 & Hdom2 & Hev2 & Hex2 & Hn2).
  { rewrite Hcap1. etrans; [|exact Hfit]. apply inj_le, subseteq_size.
    rewrite Hc1. case_decide; [set_solver|]. rewrite dom_insert_L. set_solver. }
  change (process_all (query :: queries))
    with (process_query query ;; process_all queries).
  unfold mbind, M_bind. rewrite E1, E2.
  do 2 eexists. split; [done|]. split; [done|].
  unfold executions, hits_reported in *.
  rewrite !filter_app, !length_app, Forall_app, list_to_set_cons.
  rewrite Hc1 in Hdom2, Hex2.
  case_decide as Hin.
  - split; [rewrite Hdom2; set_solver|]. split; [split; [by repeat constructor|done]|].
    replace (({[query]} ∪ list_to_set queries) ∖ dom (cache c))
      with (list_to_set queries ∖ dom (cache c) : gset string) by set_solver.
    split; [done|]. simpl. lia.
  - rewrite dom_insert_L in Hdom2, Hex2.
    split; [rewrite Hdom2; set_solver|].
    split; [split; [by repeat constructor|done]|].
    replace (({[query]} ∪ list_to_set queries) ∖ dom (cache c))
      with ({[query]} ∪ list_to_set queries ∖ ({[query]} ∪ dom (cache c))
            : gset string).
    2:{ apply set_eq. intros x. rewrite !elem_of_union, !elem_of_difference,
          !elem_of_union, !elem_of_singleton.
        destruct (decide (x = query)) as [->|]; naive_solver. }
    rewrite size_union, size_singleton by set_solver.
    split; [simpl; lia|]. simpl. simpl in Hn2. lia.
Qed.

(** X13: when every stored value is the computed one and the cached keys
    together with the benchmark's five distinct queries do not exceed the
    capacity, [run_benchmark] returns, evicts nothing, executes exactly the
    benchmark queries that were not cached and reports a hit for each of the
    others; afterwards all of them are cached. *)
Theorem run_benchmark_without_eviction (c : CacheStrategy) :
  canonical c →
  0 ≤ capacity c < 2 ^ 64 →
  Z.of_nat (size (dom (cache c) ∪ list_to_set benchmark_queries : gset string))
    ≤ capacity c →
  ∃ c' out,
    run_benchmark (mkDB (Live c)) =
      (Some (mkDB (Live c')),
       BenchmarkRunning :: (BenchmarkOutput <$> out) ++ [BenchmarkCompleted]) ∧
    dom (cache c') = dom (cache c) ∪ list_to_set benchmark_queries ∧
    Forall (λ e, is_eviction e = false) out ∧
    executions out
      = size (list_to_set benchmark_queries ∖ dom (cache c) : gset string) ∧
    (hits_reported out + executions out)%nat = 7%nat.
Proof.
  intros Hcan Hcap Hfit.
  destruct (process_all_without_eviction c benchmark_queries Hcan)
    as (c' & out & E & _ & Hdom & Hev & Hex & Hn).
  { by rewrite to_size_t_small. }
  exists c', out. unfold run_benchmark. by rewrite E.
Qed.

Lemma run_benchmark_without_eviction_witness :
  ∃ c' out,
    run_benchmark new_DatabaseSystem =
      (Some (mkDB (Live c')),
       BenchmarkRunning :: (BenchmarkOutput <$> out) ++ [BenchmarkCompleted]) ∧
    dom (cache c') = dom (cache (new_LIRSCache 5)) ∪ list_to_set benchmark_queries ∧
    Forall (λ e, is_eviction e = false) out ∧
    executions out
      = size (list_to_set benchmark_queries ∖ dom (cache (new_LIRSCache 5))
              : gset string) ∧
    (hits_reported out + executions out)%nat = 7%nat.
Proof.
  apply (run_benchmark_without_eviction (new_LIRSCache 5)).
  - intros key v Hv. simpl in Hv. by rewrite lookup_empty in Hv.
  - simpl. lia.
  - vm_compute. discriminate.
Defined.

Lemma benchmark_on_a_new_system :
  size (list_to_set benchmark_queries ∖ dom (cache (new_LIRSCache 5))
        : gset string) = 5%nat.
Proof. by vm_compute. Qed.

Lemma update_mirrors query cL cT :
  consistent cL → mirrors cL cT → is_Some (cache cL !! query) →
  mirrors (update query cL) (update query cT).
Proof.
  intros Hc (Hm & Hh & Hms & Hcap & pL & HL & Hlow & HT) Hin.
  pose proof (seq_flags _ Hc) as Hfl. apply (seq_store _ Hc) in Hin.
  rewrite HL in Hfl, Hin. simpl in Hfl, Hin. rewrite Hlow, app_nil_r in Hin.
  destruct Hfl as [Hhigh _].
  unfold mirrors, update. rewrite HL, HT. simpl.
  do 4 (split; [done|]). eexists. split; [done|].
  rewrite LIRS_update_eq, decide_True by (by apply Hhigh). by simpl.
Qed.

Lemma admit_mirrors query result cL cT :
  mirrors cL cT →
  mirrors (admit_ query (set_cache (<[query := result]> (cache cL)) cL))
          (admit_ query (set_cache (<[query := result]> (cache cT)) cT)).
Proof.
  intros (Hm & Hh & Hms & Hcap & pL & HL & Hlow & HT).
  unfold mirrors, admit_, set_cache. simpl. rewrite HL, HT, Hm. simpl.
  do 4 (split; [done|]). by eexists.
Qed.

Lemma evict_mirrors cL cT :
  consistent cL → mirrors cL cT →
  consistent (evict cL).1 ∧ mirrors (evict cL).1 (evict cT).1 ∧
  relabel <$> (evict cL).2 = (evict cT).2.
Proof.
  intros Hc (Hm & Hh & Hms & Hcap & pL & HL & Hlow & HT).
  destruct (sequences (derived cL)) as [|v t] eqn:Hseq.
  - rewrite (evict_consistent_nil _ Hc Hseq). simpl.
    rewrite HL in Hseq. simpl in Hseq. rewrite Hlow, app_nil_r in Hseq.
    assert (evict cT = (cT, [])) as ->.
    { rewrite Hseq in HT. clear -HT.
      destruct cT as [capT mT hT msT dT]. simpl in HT. by subst dT. }
    split; [done|]. split; [|done]. unfold mirrors. do 4 (split; [done|]).
    exists pL. by rewrite Hseq in *.
  - destruct (evict_consistent_cons _ _ _ Hc Hseq)
      as (c' & E & Hcache & Hseq' & Hc' & Hun & Hcap' & Hk').
    destruct (evict_counters cL) as [Hh' Hms']. rewrite E in *. simpl in *.
    split; [done|].
    rewrite HL in Hseq. simpl in Hseq. rewrite Hlow, app_nil_r in Hseq.
    assert (evict cT = (mkCache (capacity cT) (delete v (cache cT)) (cache_hits cT)
                          (cache_misses cT) (TinyFLU (mkTinyFLU t)),
                        [TinyFLUEvicted v])) as ->.
    { unfold evict. rewrite HT, Hseq. by simpl. }
    simpl. unfold kind_of in *. rewrite HL in *. simpl in Hun.
    destruct (derived c') as [p'| |] eqn:Hd'; try done. simpl in *.
    specialize (Hun Hlow). rewrite Hun, app_nil_r in Hseq'.
    split; [|done]. unfold mirrors. simpl.
    split; [by rewrite Hcache, Hm|]. split; [congruence|]. split; [congruence|].
    split; [congruence|]. exists p'. by rewrite Hseq'.
Qed.

Lemma run_call_mirrors op cL cT :
  consistent cL → mirrors cL cT → insertable_call KLIRS op →
  consistent (run_call op cL).1 ∧
  mirrors (run_call op cL).1 (run_call op cT).1 ∧
  relabel <$> (run_call op cL).2 = (run_call op cT).2.
Proof.
  intros Hc Hmir Hop.
  pose proof Hmir as (Hm & Hh & Hms & Hcap & pL & HL & Hlow & HT).
  destruct op as [query|query result]; simpl.
  - split; [by apply get_consistent|]. split; [|done].
    destruct (cache cL !! query) as [v|] eqn:Hq.
    + rewrite (get_hit _ _ _ Hq).
      rewrite (get_hit cT query v) by (by rewrite <- Hm). simpl.
      apply update_mirrors; [by destruct Hc| |by simpl; rewrite Hq].
      unfold mirrors. simpl. rewrite Hh. do 4 (split; [done|]). by exists pL.
    + rewrite (get_miss _ _ Hq).
      rewrite (get_miss cT query) by (by rewrite <- Hm). simpl.
      unfold mirrors. simpl. rewrite Hms. do 4 (split; [done|]). by exists pL.
  - destruct (cache cL !! query) as [v|] eqn:Hq.
    + rewrite (put_present _ _ _ _ Hq).
      rewrite (put_present cT query result v) by (by rewrite <- Hm). simpl.
      split; [apply update_consistent; [done|by rewrite Hq]|].
      split; [|done]. apply update_mirrors; [done|done|by rewrite Hq].
    + rewrite (put_absent _ _ _ Hq).
      rewrite (put_absent cT query result) by (by rewrite <- Hm). simpl.
      rewrite <- Hcap, <- Hm.
      destruct (to_size_t (capacity cL) <=? Z.of_nat (size (cache cL)))%Z.
      * destruct (evict_mirrors cL cT Hc Hmir) as (Hc1 & Hmir1 & Hout).
        split; [|split; [|done]].
        -- apply admit_consistent; [done| |].
           ++ destruct (evict_lookup cL query) as [->| ->]; done.
           ++ by rewrite evict_kind_of; unfold kind_of; rewrite HL.
        -- by apply admit_mirrors.
      * split; [|split; [|done]].
        -- apply admit_consistent; [done|done|].
           by unfold kind_of; rewrite HL.
        -- by apply admit_mirrors.
Qed.

(** X17: on every run without an empty inserted key a [LIRSCache] and a
    [TinyFLUCache] of the same capacity hold the same store and counters and
    evict the same victims in the same order; the high list of the one is
    the queue of the other. *)
Theorem LIRS_behaves_like_TinyFLU (cap : Z) (ops : list call) :
  Forall (insertable_call KLIRS) ops →
  let '(cL, outL) := run_calls ops (new_LIRSCache cap) in
  let '(cT, outT) := run_calls ops (new_TinyFLUCache cap) in
  cache cL = cache cT ∧
  cache_hits cL = cache_hits cT ∧ cache_misses cL = cache_misses cT ∧
  relabel <$> outL = outT ∧
  ∃ pL, derived cL = LIRS pL ∧ low_interference_list pL = [] ∧
        derived cT = TinyFLU (mkTinyFLU (high_interference_list pL)).
Proof.
  intros Hops.
  assert (∀ cL cT, consistent cL → mirrors cL cT →
            consistent (run_calls ops cL).1 ∧
            mirrors (run_calls ops cL).1 (run_calls ops cT).1 ∧
            relabel <$> (run_calls ops cL).2 = (run_calls ops cT).2) as Hgen.
  { induction ops as [|op ops IH]; intros cL cT Hc Hmir; [done|].
    apply Forall_cons in Hops as [Hop Hops]. simpl.
    destruct (run_call_mirrors op cL cT Hc Hmir Hop) as (Hc1 & Hmir1 & Hout1).
    destruct (run_call op cL) as [cL1 outL1], (run_call op cT) as [cT1 outT1].
    simpl in *. destruct (IH Hops cL1 cT1 Hc1 Hmir1) as (Hc2 & Hmir2 & Hout2).
    destruct (run_calls ops cL1) as [cL2 outL2],
             (run_calls ops cT1) as [cT2 outT2]. simpl in *.
    split; [done|]. split; [done|]. by rewrite fmap_app, Hout1, Hout2. }
  destruct (Hgen (new_LIRSCache cap) (new_TinyFLUCache cap))
    as (_ & (Hm & Hh & Hms & _ & Hp) & Hout).
  - apply (consistent_new KLIRS).
  - unfold mirrors. simpl. do 4 (split; [done|]). by eexists.
  - by destruct (run_calls ops (new_LIRSCache cap)),
               (run_calls ops (new_TinyFLUCache cap)).
Qed.

Lemma LIRS_behaves_like_TinyFLU_witness :
  let '(cL, outL) :=
    run_calls [Put "a" "1"; Put "b" "2"; Get "a"; Put "c" "3"] (new_LIRSCache 2) in
  let '(cT, outT) :=
    run_calls [Put "a" "1"; Put "b" "2"; Get "a"; Put "c" "3"] (new_TinyFLUCache 2) in
  cache cL = cache cT ∧
  cache_hits cL = cache_hits cT ∧ cache_misses cL = cache_misses cT ∧
  relabel <$> outL = outT ∧
  ∃ pL, derived cL = LIRS pL ∧ low_interference_list pL = [] ∧
        derived cT = TinyFLU (mkTinyFLU (high_interference_list pL)).
Proof.
  apply (LIRS_behaves_like_TinyFLU 2
           [Put "a" "1"; Put "b" "2"; Get "a"; Put "c" "3"]).
  repeat (apply Forall_cons; split; [simpl; first [done|by right]|]).
  constructor.
Defined.



(** X20: five insertions of distinct keys into a new cache of capacity 5, a
    lookup of the first key and a sixth insertion: the lookup returns the
    first value and the insertion evicts the second key, for the three
    policies, when no empty key is inserted into a [LIRSCache] or an
    [S3FIFOCache]. *)
Theorem a_hit_on_the_oldest_key_spares_it
    (k : kind) (K1 K2 K3 K4 K5 K6 v1 v2 v3 v4 v5 v6 : string) :
  NoDup [K1; K2; K3; K4; K5; K6] →
  Forall (insertable k) [K1; K2; K3; K4; K5; K6] →
  ∃ c5 c5' c6,
    run_calls [Put K1 v1; Put K2 v2; Put K3 v3; Put K4 v4; Put K5 v5]
              (new_cache k 5) = (c5, []) ∧
    get K1 c5 = (v1, c5') ∧
    sequences (derived c5') = [K2; K3; K4; K5; K1] ∧
    put K6 v6 c5' = (c6, [evicted k K2]) ∧
    cache c6 = <[K6 := v6]> (delete K2 (cache c5)) ∧
    cache c6 !! K2 = None ∧ cache c6 !! K1 = Some v1.
Proof.
  intros Hnd Hins.
  destruct (hit_on_first_then_second_is_evicted k K1 K2 K3 K4 K5 K6
              v1 v2 v3 v4 v5 v6 Hnd Hins)
    as (c5 & c5' & c6 & ? & ? & ? & ? & ? & ? & ? & ?).
  by exists c5, c5', c6.
Qed.

Lemma a_hit_on_the_oldest_key_spares_it_witness :
  ∃ c5 c5' c6,
    run_calls [Put "a" "1"; Put "b" "2"; Put "c" "3"; Put "d" "4"; Put "e" "5"]
              (new_cache KLIRS 5) = (c5, []) ∧
    get "a" c5 = ("1", c5') ∧
    sequences (derived c5') = ["b"; "c"; "d"; "e"; "a"] ∧
    put "f" "6" c5' = (c6, [evicted KLIRS "b"]) ∧
    cache c6 = <[ "f" := "6" ]> (delete "b" (cache c5)) ∧
    cache c6 !! "b" = None ∧ cache c6 !! "a" = Some "1".
Proof.
  apply (a_hit_on_the_oldest_key_spares_it KLIRS "a" "b" "c" "d" "e" "f").
  - apply (bool_decide_unpack _). vm_compute. exact I.
  - repeat (apply Forall_cons; split; [by right|]). constructor.
Defined.

Lemma find_erase_NoDup query d :
  NoDup d → query ∈ d → find_erase query d = Some (erase_remove query d).
Proof.
  induction d as [|x d IH]; [by intros _ ?%elem_of_nil|].
  intros [Hx Hd]%NoDup_cons Hin. simpl. case_decide as Hq.
  - subst x. f_equal. unfold erase_remove.
    rewrite filter_cons_False by (by intros []).
    symmetry. by apply erase_remove_absent.
  - apply elem_of_cons in Hin as [?|Hin]; [congruence|].
    rewrite (IH Hd Hin). unfold erase_remove.
    by rewrite (filter_cons_True _ x) by done.
Qed.

Lemma erase_remove_snoc query d :
  query ∉ d → erase_remove query (d ++ [query]) = d.
Proof.
  intros Hd. unfold erase_remove. rewrite filter_app.
  rewrite (filter_cons_False _ query) by (by intros []).
  rewrite filter_nil, app_nil_r. by apply erase_remove_absent.
Qed.

(** X18: in an [S3FIFOCache] without duplicates, a first hit moves a key of
    [short_term] to the tail of [medium_term], a second hit to the tail of
    [long_term], and a third hit changes nothing more; the other keys keep
    their queue and order. *)
Theorem S3FIFO_hits_promote_one_segment_at_a_time (p : S3FIFOCache) (query : string) :
  NoDup (short_term p ++ medium_term p ++ long_term p) →
  query ∈ short_term p →
  let p1 := S3FIFO_update query p in
  let p2 := S3FIFO_update query p1 in
  let p3 := S3FIFO_update query p2 in
  p1 = mkS3FIFO (erase_remove query (short_term p))
                (medium_term p ++ [query]) (long_term p) ∧
  p2 = mkS3FIFO (erase_remove query (short_term p))
                (medium_term p) (long_term p ++ [query]) ∧
  p3 = p2 ∧
  (query ∉ short_term p2) ∧ (query ∉ medium_term p2).
Proof.
  intros Hnd Hs p1 p2 p3.
  apply NoDup_app in Hnd as (Hnds & Hdis & Hnd).
  apply NoDup_app in Hnd as (Hndm & _ & Hndl).
  assert ((query ∉ medium_term p) ∧ (query ∉ long_term p)) as [Hm Hl].
  { specialize (Hdis _ Hs). rewrite elem_of_app in Hdis. tauto. }
  assert (query ∉ erase_remove query (short_term p)) as Hs'.
  { rewrite elem_of_erase_remove. tauto. }
  assert (p1 = mkS3FIFO (erase_remove query (short_term p))
                (medium_term p ++ [query]) (long_term p)) as E1.
  { unfold p1, S3FIFO_update. by rewrite (find_erase_NoDup _ _ Hnds Hs). }
  assert (p2 = mkS3FIFO (erase_remove query (short_term p))
                (medium_term p) (long_term p ++ [query])) as E2.
  { unfold p2. rewrite E1. unfold S3FIFO_update. simpl.
    rewrite (find_erase_absent _ _ Hs').
    rewrite find_erase_NoDup.
    - by rewrite (erase_remove_snoc _ _ Hm).
    - apply NoDup_app. split; [done|]. split; [|apply NoDup_singleton].
      intros x Hx ->%list_elem_of_singleton. done.
    - apply elem_of_app. right. by left. }
  split; [done|]. split; [done|]. split; [|by rewrite E2].
  unfold p3. rewrite E2. unfold S3FIFO_update. simpl.
  rewrite (find_erase_absent _ _ Hs'), (find_erase_absent _ _ Hm).
  rewrite find_erase_NoDup.
  - by rewrite (erase_remove_snoc _ _ Hl).
  - apply NoDup_app. split; [done|]. split; [|apply NoDup_singleton].
    intros x Hx ->%list_elem_of_singleton. done.
  - apply elem_of_app. right. by left.
Qed.

Lemma S3FIFO_hits_promote_one_segment_at_a_time_witness :
  let p := mkS3FIFO ["a"; "b"] ["c"] ["d"] in
  let p1 := S3FIFO_update "b" p in
  let p2 := S3FIFO_update "b" p1 in
  let p3 := S3FIFO_update "b" p2 in
  p1 = mkS3FIFO (erase_remove "b" (short_term p))
                (medium_term p ++ ["b"]) (long_term p) ∧
  p2 = mkS3FIFO (erase_remove "b" (short_term p))
                (medium_term p) (long_term p ++ ["b"]) ∧
  p3 = p2 ∧
  ("b" ∉ short_term p2) ∧ ("b" ∉ medium_term p2).
Proof.
  apply (S3FIFO_hits_promote_one_segment_at_a_time
           (mkS3FIFO ["a"; "b"] ["c"] ["d"]) "b").
  - apply (bool_decide_unpack _). vm_compute. exact I.
  - apply (bool_decide_unpack _). vm_compute. exact I.
Defined.

Lemma update_with_capacity n query c :
  update query (with_capacity n c) = with_capacity n (update query c).
Proof. unfold update, with_capacity. simpl. by destruct (derived c). Qed.

Lemma admit_with_capacity n query m c :
  admit_ query (set_cache m (with_capacity n c)) =
    with_capacity n (admit_ query (set_cache m c)).
Proof. unfold admit_, with_capacity. simpl. by destruct (derived c). Qed.

Lemma evict_with_capacity n c :
  evict (with_capacity n c) = (with_capacity n (evict c).1, (evict c).2).
Proof.
  unfold evict, with_capacity. simpl. destruct (derived c) as [p|p|p].
  - by destruct (LIRS_evict (cache c) p) as [[??]?].
  - by destruct (TinyFLU_evict (cache c) p) as [[??]?].
  - by destruct (S3FIFO_evict (cache c) p) as [[??]?].
Qed.

Lemma get_with_capacity n query c :
  get query (with_capacity n c) = ((get query c).1, with_capacity n (get query c).2).
Proof.
  destruct (cache c !! query) as [v|] eqn:Hq.
  - rewrite (get_hit c _ _ Hq), (get_hit (with_capacity n c) _ v) by done.
    simpl. f_equal. apply (update_with_capacity n query
      (mkCache (capacity c) (cache c) (incr (cache_hits c)) (cache_misses c)
               (derived c))).
  - by rewrite (get_miss c _ Hq), (get_miss (with_capacity n c)) by done.
Qed.

Lemma put_with_capacity_zero query result c :
  consistent c → capacity c = 1 →
  put query result (with_capacity 0 c) =
    (with_capacity 0 (put query result c).1, (put query result c).2).
Proof.
  intros Hc Hcap. destruct (cache c !! query) as [v|] eqn:Hq.
  - rewrite (put_present c _ _ _ Hq), (put_present (with_capacity 0 c) _ _ v)
      by done.
    simpl. by rewrite update_with_capacity.
  - rewrite (put_absent c _ _ Hq), (put_absent (with_capacity 0 c)) by done.
    simpl. rewrite Hcap.
    change (to_size_t 0 <=? Z.of_nat (size (cache c)))%Z with
      (0 <=? Z.of_nat (size (cache c)))%Z.
    change (to_size_t 1) with 1.
    replace (0 <=? Z.of_nat (size (cache c)))%Z with true
      by (symmetry; apply Z.leb_le; lia).
    rewrite evict_with_capacity. simpl.
    destruct (1 <=? Z.of_nat (size (cache c)))%Z eqn:Hfull.
    + by rewrite admit_with_capacity.
    + apply Z.leb_gt in Hfull.
      assert (sequences (derived c) = []) as Hnil.
      { apply length_zero_iff_nil. rewrite <- (consistent_size _ Hc). lia. }
      rewrite (evict_consistent_nil _ Hc Hnil). simpl.
      by rewrite admit_with_capacity.
Qed.

(** X16: a cache of capacity 0 behaves as one of capacity 1: [put] calls
    [evict] on the empty store, which does nothing, and inserts all the same.
    On every run without an empty key in a [LIRSCache] or an [S3FIFOCache],
    both print the same lines and end in the same state, capacity apart. *)
Theorem capacity_zero_acts_as_capacity_one (k : kind) (ops : list call) :
  Forall (insertable_call k) ops →
  run_calls ops (new_cache k 0) =
    (with_capacity 0 (run_calls ops (new_cache k 1)).1,
     (run_calls ops (new_cache k 1)).2).
Proof.
  intros Hops.
  assert (∀ c, consistent c → capacity c = 1 → kind_of c = k →
            Z.of_nat (size (cache c)) ≤ 1 →
            run_calls ops (with_capacity 0 c) =
              (with_capacity 0 (run_calls ops c).1, (run_calls ops c).2)) as Hgen.
  { induction ops as [|op ops IH]; intros c Hc Hcap Hk Hsize; [done|].
    apply Forall_cons in Hops as [Hop Hops]. rewrite <- Hk in Hop.
    destruct (run_call_consistent op c Hc Hop) as [Hc1 Hsize1];
      [rewrite Hcap; lia|by rewrite Hcap|].
    pose proof (run_call_capacity op c) as Hcap1.
    pose proof (run_call_kind_of op c) as Hk1.
    assert (run_call op (with_capacity 0 c) =
              (with_capacity 0 (run_call op c).1, (run_call op c).2)) as E.
    { destruct op as [query|query result]; simpl.
      - by rewrite get_with_capacity.
      - by apply put_with_capacity_zero. }
    simpl. rewrite E. destruct (run_call op c) as [c1 out1]. simpl in *.
    rewrite IH; [|done|done|congruence|congruence|by rewrite <- Hcap].
    by destruct (run_calls ops c1). }
  replace (new_cache k 0) with (with_capacity 0 (new_cache k 1))
    by (by destruct k).
  apply Hgen.
  - apply consistent_new.
  - by destruct k.
  - by destruct k.
  - destruct k; simpl; rewrite map_size_empty; lia.
Qed.

Lemma capacity_zero_acts_as_capacity_one_witness :
  run_calls [Put "a" "1"; Get "a"; Put "b" "2"] (new_cache KS3FIFO 0) =
    (with_capacity 0 (run_calls [Put "a" "1"; Get "a"; Put "b" "2"]
                                (new_cache KS3FIFO 1)).1,
     (run_calls [Put "a" "1"; Get "a"; Put "b" "2"] (new_cache KS3FIFO 1)).2).
Proof.
  apply (capacity_zero_acts_as_capacity_one KS3FIFO).
  repeat (apply Forall_cons; split; [simpl; first [done|by right]|]).
  constructor.
Defined.
